(** * Conflict-marker resolution scripts of grainlify

    A shallow embedding of the two maintenance scripts

      - [resolve_core_conflicts.py]: a line-by-line filter driven by the two
        flags [in_head] and [in_remote];
      - [resolve_head.py]: one regular-expression substitution over the whole
        file content,

    followed by the properties their specification states about them.

    Text is a list of characters.  A Python [str] read from a source file is
    modelled as [list ascii]; the three marker texts are plain ASCII and the
    newline is character 10. *)

From Stdlib Require Import List Ascii String Bool Arith Lia.
Import ListNotations.

(* ------------------------------------------------------------------ *)
(** ** Text, lines and the string primitives the scripts call *)

Definition text := list ascii.
Definition line := list ascii.

Definition lit (s : string) : text := list_ascii_of_string s.

Definition nl : ascii := "010"%char.

Arguments Ascii.eqb : simpl never.

(** [str.startswith]: [startswith p s] is [s.startswith(p)]. *)
Fixpoint startswith (p s : text) : bool :=
  match p, s with
  | [], _ => true
  | _ :: _, [] => false
  | a :: p', c :: s' => Ascii.eqb a c && startswith p' s'
  end.

(** Some suffix of [s] satisfies [P]. *)
Fixpoint anywhere (P : text -> bool) (s : text) : bool :=
  P s ||
  match s with
  | [] => false
  | _ :: s' => anywhere P s'
  end.

(** [p in s] on strings: some suffix of [s] starts with [p]. *)
Definition contains (p s : text) : bool := anywhere (startswith p) s.

(** [content.split('\n')]: always at least one line, none holding a newline. *)
Fixpoint split (s : text) : list line :=
  match s with
  | [] => [[]]
  | c :: s' =>
      if Ascii.eqb c nl then [] :: split s'
      else match split s' with
           | l :: ls => (c :: l) :: ls
           | [] => [[c]]
           end
  end.

(** Every line preceded by a newline. *)
Fixpoint tails (ls : list line) : text :=
  match ls with
  | [] => []
  | l :: ls' => nl :: l ++ tails ls'
  end.

(** ['\n'.join(lines)]. *)
Definition join (ls : list line) : text :=
  match ls with
  | [] => []
  | l :: ls' => l ++ tails ls'
  end.

Definition no_nl (l : line) : bool := forallb (fun c => negb (Ascii.eqb c nl)) l.

(** The marker texts. *)
Definition START : text := lit "<<<<<<< HEAD".
Definition SEPT : text := lit "=======".
Definition ENDT : text := lit ">>>>>>>".

(** The three literal pieces of the pattern of [resolve_head.py]:
    ["<<<<<<< HEAD\n"], ["\n=======\n"] and ["\n>>>>>>> "]. *)
Definition START_NL : text := START ++ [nl].
Definition SEP : text := nl :: SEPT ++ [nl].
Definition ENDP : text := nl :: ENDT ++ lit " ".

(* ------------------------------------------------------------------ *)
(** ** resolve_core_conflicts.py: the line filter *)

Module Scan.

Record state := { in_head : bool; in_remote : bool }.

Definition init : state := {| in_head := false; in_remote := false |}.

(** One iteration of [for line in lines]: the flags and [new_lines] after
    the iteration. *)
Definition body (acc : state * list line) (l : line) : state * list line :=
  let (st, new_lines) := acc in
  if startswith START l then
    ({| in_head := true; in_remote := in_remote st |}, new_lines)
  else if startswith SEPT l then
    if in_head st then
      ({| in_head := false; in_remote := true |}, new_lines)
    else (st, new_lines ++ [l])
  else if startswith ENDT l then
    if in_remote st then
      ({| in_head := in_head st; in_remote := false |}, new_lines)
    else (st, new_lines ++ [l])
  else if in_remote st then (st, new_lines)
  else (st, new_lines ++ [l]).

(** The whole loop from given flags and a given [new_lines]. *)
Definition loop (acc : state * list line) (ls : list line) : state * list line :=
  fold_left body ls acc.

(** The loop on the lines of a file: final flags and final [new_lines]. *)
Definition run (ls : list line) : state * list line := loop (init, []) ls.

Definition filter_lines (ls : list line) : list line := snd (run ls).

(** What is written back for a file holding [content]. *)
Definition resolve (content : text) : text :=
  join (filter_lines (split content)).

End Scan.

(* ------------------------------------------------------------------ *)
(** ** resolve_head.py: the regular-expression substitution *)

Module Regex.

(** The operations the compiled pattern is made of.  [re.DOTALL] is folded
    into the character class of the repeats: [.] is every character. *)
Inductive op :=
| LITERAL (p : text)                 (* a run of literal characters *)
| MARK_OPEN                          (* "(" of group 1 *)
| MARK_CLOSE                         (* ")" of group 1 *)
| MIN_STAR (cls : ascii -> bool)     (* cls*?  : as few as possible *)
| MAX_PLUS (cls : ascii -> bool).    (* cls+   : as many as possible *)

(** Group 1 while a match is attempted. *)
Record marks := { opened : bool; grp : text }.

Definition consume (m : marks) (x : text) : marks :=
  if opened m then {| opened := true; grp := grp m ++ x |} else m.

(** A successful attempt: the text of group 1 and the input left unread. *)
Definition matched := (text * text)%type.

(** [cls*?] followed by [K]: try [K] first, take one more character only
    when [K] fails. *)
Fixpoint lazy_loop (cls : ascii -> bool) (K : marks -> text -> option matched)
         (m : marks) (s : text) : option matched :=
  match K m s with
  | Some r => Some r
  | None =>
      match s with
      | c :: s' => if cls c then lazy_loop cls K (consume m [c]) s' else None
      | [] => None
      end
  end.

(** [cls+] followed by [K]: take characters while they are in the class,
    then give back one at a time until [K] succeeds. *)
Fixpoint greedy_loop (cls : ascii -> bool) (K : marks -> text -> option matched)
         (m : marks) (s : text) : option matched :=
  match s with
  | c :: s' =>
      if cls c then
        match greedy_loop cls K (consume m [c]) s' with
        | Some r => Some r
        | None => K (consume m [c]) s'
        end
      else None
  | [] => None
  end.

(** The backtracking matcher, anchored at the head of [s]. *)
Fixpoint exec (ops : list op) (m : marks) (s : text) {struct ops}
  : option matched :=
  match ops with
  | [] => Some (grp m, s)
  | LITERAL p :: k =>
      if startswith p s then exec k (consume m p) (skipn (List.length p) s)
      else None
  | MARK_OPEN :: k => exec k {| opened := true; grp := [] |} s
  | MARK_CLOSE :: k => exec k {| opened := false; grp := grp m |} s
  | MIN_STAR cls :: k => lazy_loop cls (exec k) m s
  | MAX_PLUS cls :: k => greedy_loop cls (exec k) m s
  end.

Definition any : ascii -> bool := fun _ => true.
Definition not_nl : ascii -> bool := fun c => negb (Ascii.eqb c nl).

(** [re.compile(r'<<<<<<< HEAD\n(.*?)\n=======\n.*?\n>>>>>>> [^\n]+', re.DOTALL)] *)
Definition pattern : list op :=
  [ LITERAL START_NL;
    MARK_OPEN; MIN_STAR any; MARK_CLOSE;
    LITERAL SEP;
    MIN_STAR any;
    LITERAL ENDP;
    MAX_PLUS not_nl ].

(** What is left of the pattern once group 1 is being read, and once the
    separator has been read. *)
Definition after_open : list op :=
  [ MARK_CLOSE; LITERAL SEP; MIN_STAR any; LITERAL ENDP; MAX_PLUS not_nl ].
Definition after_sep : list op := [ LITERAL ENDP; MAX_PLUS not_nl ].

Definition match_at (s : text) : option matched :=
  exec pattern {| opened := false; grp := [] |} s.

(** [pattern.sub(r'\1', s)]: scan left to right; where the pattern matches,
    emit group 1 and resume after the match; elsewhere copy one character.
    The fuel bounds the number of scan steps. *)
Fixpoint sub_fuel (n : nat) (s : text) : text :=
  match n with
  | O => s
  | S n' =>
      match s with
      | [] => []
      | c :: s' =>
          match match_at s with
          | Some (g, rest) => g ++ sub_fuel n' rest
          | None => c :: sub_fuel n' s'
          end
      end
  end.

Definition sub (s : text) : text := sub_fuel (List.length s) s.

(** What is written back for a file holding [content]. *)
Definition resolve (content : text) : text := sub content.

End Regex.

(* ------------------------------------------------------------------ *)
(** ** The per-file body of both scripts over a file store *)

Definition path := list ascii.

Definition cr : ascii := "013"%char.

(** Reading in text mode: a carriage return, together with the newline
    that may follow it, is read as one newline.  [after_cr] holds right
    after a carriage return. *)
Fixpoint newlines_in (after_cr : bool) (s : text) : text :=
  match s with
  | [] => []
  | c :: s' =>
      if Ascii.eqb c cr then nl :: newlines_in true s'
      else if Ascii.eqb c nl && after_cr then newlines_in false s'
      else c :: newlines_in false s'
  end.

Definition universal_newlines (s : text) : text := newlines_in false s.

(** Writing in text mode: every newline is written as the line separator
    of the platform. *)
Inductive platform := Posix | Windows.

Definition linesep (pf : platform) : text :=
  match pf with
  | Posix => [nl]
  | Windows => [cr; nl]
  end.

Definition newlines_out (pf : platform) (s : text) : text :=
  flat_map (fun c => if Ascii.eqb c nl then linesep pf else [c]) s.

(** A file: its characters under the encoding in use, as they are stored
    ([None] when its bytes do not decode), and whether it may be opened
    for reading and for writing. *)
Record file := { decoded : option text; readable : bool; writable : bool }.

(** A file store: the files that exist. *)
Definition store := path -> option file.

Definition write (fs : store) (p : path) (f : file) : store :=
  fun q => if list_eq_dec ascii_dec q p then Some f else fs q.

(** [with open(p,'r') as f: content = f.read()], the transformation, then
    [with open(p,'w') as f: f.write(new_content)].  [None] when one of the
    three steps raises; the exception ends the run and the store stays as
    it is. *)
Definition process_file (pf : platform) (transform : text -> text)
           (fs : store) (p : path) : option store :=
  match fs p with
  | None => None                       (* no such file: open(p,'r') raises *)
  | Some f =>
      if readable f then
        match decoded f with
        | None => None                 (* undecodable bytes: f.read() raises *)
        | Some raw =>
            let content := universal_newlines raw in
            let new_content := transform content in
            if writable f then
              Some (write fs p
                      {| decoded := Some (newlines_out pf new_content);
                         readable := readable f;
                         writable := writable f |})
            else None                  (* open(p,'w') raises *)
        end
      else None                        (* open(p,'r') raises *)
  end.

(** [for filepath in files: ...] *)
Fixpoint process_files (pf : platform) (transform : text -> text) (fs : store)
         (files : list path) : option store :=
  match files with
  | [] => Some fs
  | p :: ps =>
      match process_file pf transform fs p with
      | None => None
      | Some fs' => process_files pf transform fs' ps
      end
  end.

(* ------------------------------------------------------------------ *)
(** ** Documents as sequences of plain lines and conflict blocks *)

(** A piece of a document: one line outside every block, or one conflict
    block with its local segment, its incoming segment and the identifier
    that follows the end marker. *)
Inductive chunk :=
| Plain (l : line)
| Conflict (local incoming : list line) (ident : text).

Definition end_line (ident : text) : line := ENDT ++ lit " " ++ ident.

Definition chunk_lines (c : chunk) : list line :=
  match c with
  | Plain l => [l]
  | Conflict lo inc id => START :: lo ++ SEPT :: inc ++ [end_line id]
  end.

(** The lines a resolved chunk leaves: the local segment of a block. *)
Definition chunk_resolved (c : chunk) : list line :=
  match c with
  | Plain l => [l]
  | Conflict lo _ _ => lo
  end.

Definition render (d : list chunk) : text := join (flat_map chunk_lines d).
Definition resolved (d : list chunk) : text := join (flat_map chunk_resolved d).

Definition nonempty {A} (l : list A) : bool :=
  match l with [] => false | _ :: _ => true end.

(** A line of a segment: one line, opening with none of the marker texts. *)
Definition content_line (l : line) : bool :=
  no_nl l && negb (startswith START l) && negb (startswith SEPT l)
  && negb (startswith ENDT l).

(** A line outside the blocks: one line in which the start-marker text does
    not occur.  Lines opening with the separator or end-marker text are
    allowed here. *)
Definition outside_line (l : line) : bool :=
  no_nl l && negb (contains START l).

(** Markers in order, segments free of marker lines, an identifier after
    the end marker. *)
Definition well_formed (c : chunk) : bool :=
  match c with
  | Plain l => outside_line l
  | Conflict lo inc id =>
      forallb content_line lo && forallb content_line inc
      && no_nl id && nonempty id
  end.

(** Both segments of a block hold at least one (possibly empty) line. *)
Definition both_segments (c : chunk) : bool :=
  match c with
  | Plain _ => true
  | Conflict lo inc _ => nonempty lo && nonempty inc
  end.

(** A line opening with one of the three marker texts. *)
Definition marker_line (l : line) : bool :=
  startswith START l || startswith SEPT l || startswith ENDT l.

Definition no_marker_lines (s : text) : bool :=
  forallb (fun l => negb (marker_line l)) (split s).

(** An end marker the pattern accepts begins at the head of [s]. *)
Definition end_here (s : text) : bool :=
  startswith ENDP s &&
  match skipn (List.length ENDP) s with
  | c :: _ => Regex.not_nl c
  | [] => false
  end.

(** A separator begins at the head of [s] and an accepted end marker
    begins somewhere after it. *)
Definition sep_here (s : text) : bool :=
  startswith SEP s && anywhere end_here (skipn (List.length SEP) s).

(** The text after a start marker holds a separator and, after it, an end
    marker: the start marker has its matching separator and end marker. *)
Definition sep_then_end (s : text) : bool := anywhere sep_here s.

(** A start marker with its newline begins at the head of [s] and has its
    matching separator and end marker. *)
Definition block_here (s : text) : bool :=
  startswith START_NL s && sep_then_end (skipn (List.length START_NL) s).

(** Somewhere in [s] a complete start / separator / end triple begins. *)
Definition has_block (s : text) : bool := anywhere block_here s.

(** The line of an end marker as the pattern accepts it: the end-marker
    text, a space, at least one more character. *)
Definition accepted_end (e : line) : bool :=
  startswith (ENDT ++ lit " ") e && nonempty (skipn 8 e).

(** The texts at which a line of [ls] begins (newline included), followed
    by [t], all fail [P]. *)
Fixpoint line_starts_fail (P : text -> bool) (ls : list line) (t : text) : bool :=
  match ls with
  | [] => true
  | l :: post => negb (P (nl :: l ++ tails post ++ t)) && line_starts_fail P post t
  end.

(** End of a line: end of text, or a newline. *)
Definition line_end (t : text) : Prop :=
  match t with
  | [] => True
  | c :: _ => c = nl
  end.

(** The filter seen one line at a time: the flags after a line and what the
    line adds to [new_lines]. *)
Definition step (st : Scan.state) (l : line) : Scan.state * list line :=
  let (st', out) := Scan.body (st, []) l in (st', out).

Fixpoint emit (st : Scan.state) (ls : list line) : list line :=
  match ls with
  | [] => []
  | l :: ls' => snd (step st l) ++ emit (fst (step st l)) ls'
  end.

Definition final (st : Scan.state) (ls : list line) : Scan.state :=
  fold_left (fun st l => fst (step st l)) ls st.

Definition IN_LOCAL : Scan.state := {| Scan.in_head := true; Scan.in_remote := false |}.
Definition IN_INCOMING : Scan.state := {| Scan.in_head := false; Scan.in_remote := true |}.

(** The concrete inputs of the specification's scenarios. *)
Definition scan_scenario : list line :=
  map lit ["a"; "<<<<<<< HEAD"; "b"; "======="; "c"; ">>>>>>> branch1"; "d"]%string.

Definition two_block_scenario : text :=
  join (map lit ["<<<<<<< HEAD"; "L1"; "======="; "R1"; ">>>>>>> h1"; "mid";
                 "<<<<<<< HEAD"; "L2"; "======="; "R2"; ">>>>>>> h2"]%string).

(** A separator, a line, a second separator line and one more line, with
    no end marker. *)
Definition second_separator_scenario : list line :=
  map lit ["<<<<<<< HEAD"; "a"; "======="; "b"; "======="; "c"]%string.

(** A start marker inside the incoming segment of an open block: the text
    before it, and the text after its line. *)
Definition nested_before : text :=
  join (map lit ["<<<<<<< HEAD"; "A"; "======="; "B"]%string) ++ [nl].

Definition nested_after : text := join (map lit ["C"; ">>>>>>> x"]%string).

(** A block with no local line after an open block. *)
Definition open_then_empty_local : text :=
  nested_before ++ join (map lit ["<<<<<<< HEAD"; "======="; "R"; ">>>>>>> x"]%string).

(** A block with no local line, alone and before a second block. *)
Definition empty_local_block : list chunk :=
  [Conflict [] [lit "c"] (lit "b")].

Definition empty_local_then_block : list chunk :=
  [Conflict [] [lit "R1"] (lit "h1"); Plain (lit "mid");
   Conflict [lit "L2"] [lit "R2"] (lit "h2")].

(* ------------------------------------------------------------------ *)
(** ** The scripts as wholes *)

Definition path_eq_dec : forall p q : path, {p = q} + {p <> q} :=
  list_eq_dec ascii_dec.

Definition is_some {A} (o : option A) : bool :=
  match o with Some _ => true | None => false end.

(** The file loop again, keeping what an exception leaves behind: the
    store as it is when the loop ends, and the path at which a step
    raised, if one did. *)
Fixpoint run_files (pf : platform) (transform : text -> text) (fs : store)
         (files : list path) : store * option path :=
  match files with
  | [] => (fs, None)
  | p :: ps =>
      match process_file pf transform fs p with
      | None => (fs, Some p)
      | Some fs' => run_files pf transform fs' ps
      end
  end.

(** [resolve_head.py]: the list of files is written in the script. *)
Definition head_files : list path :=
  map lit [ "contracts/program-escrow/src/test_full_lifecycle.rs";
            "contracts/program-escrow/src/test_pause.rs";
            "contracts/program-escrow/src/lib.rs";
            "contracts/program-escrow/src/test_circuit_breaker_audit.rs" ]%string.

Definition resolve_head_main (pf : platform) (fs : store) : option store :=
  process_files pf Regex.resolve fs head_files.

(** [resolve_core_conflicts.py]: the list of files is what [glob.glob]
    returns, taken here as given. *)
Definition resolve_core_main (pf : platform) (globbed : list path) (fs : store)
  : option store :=
  process_files pf Scan.resolve fs globbed.

(** One run of a script after another; the second does not start when the
    first raised. *)
Definition and_then (r : option store) (k : store -> option store) : option store :=
  match r with
  | Some fs => k fs
  | None => None
  end.

(** The file [q] after a run. *)
Definition content_after (r : option store) (q : path) : option (option file) :=
  option_map (fun fs => fs q) r.

(** A file the per-file body gets through: it exists, opens for reading,
    decodes and opens for writing. *)
Definition usable (f : file) : bool :=
  readable f && is_some (decoded f) && writable f.

Definition usable_at (fs : store) (p : path) : bool :=
  match fs p with
  | Some f => usable f
  | None => false
  end.

(** The file after the per-file body: its characters read, transformed
    and written back. *)
Definition rewritten (pf : platform) (transform : text -> text) (f : file) : file :=
  {| decoded := option_map (fun raw => newlines_out pf (transform (universal_newlines raw)))
                           (decoded f);
     readable := readable f;
     writable := writable f |}.

(** Files and a store to try the loops on: a file with a block under
    carriage-return line ends, a file that may not be written, and an
    ordinary file. *)
Definition text_file (s : text) : file :=
  {| decoded := Some s; readable := true; writable := true |}.

Definition crlf_scenario : text :=
  lit "<<<<<<< HEAD" ++ [cr; nl] ++ lit "L" ++ [cr; nl] ++ lit "=======" ++ [cr; nl]
  ++ lit "R" ++ [cr; nl] ++ lit ">>>>>>> x" ++ [cr; nl].

Definition example_store : store :=
  fun p =>
    if path_eq_dec p (lit "a.rs") then Some (text_file crlf_scenario)
    else if path_eq_dec p (lit "b.rs") then
      Some {| decoded := Some two_block_scenario; readable := true; writable := false |}
    else if path_eq_dec p (lit "c.rs") then Some (text_file two_block_scenario)
    else None.

(** A file that the per-file body gets through and leaves as it is. *)
Definition settled (pf : platform) (transform : text -> text) (g : file) : Prop :=
  usable g = true /\ rewritten pf transform g = g.

Definition no_cr (s : text) : bool := forallb (fun c => negb (Ascii.eqb c cr)) s.

(** The scan of the substitution over the first [k] characters of [s]:
    what it writes for them when it comes to stand at position [k], and
    [None] when a match it takes runs over that position.  The fuel is as
    in [sub_fuel]. *)
Fixpoint sub_upto (n k : nat) (s : text) : option text :=
  match k with
  | O => Some []
  | S k' =>
      match n with
      | O => None
      | S n' =>
          match s with
          | [] => None
          | c :: s' =>
              match Regex.match_at s with
              | Some (g, rest) =>
                  let used := List.length s - List.length rest in
                  if used <=? k
                  then option_map (app g) (sub_upto n' (k - used) rest)
                  else None
              | None => option_map (cons c) (sub_upto n' k' s')
              end
          end
      end
  end.

(** What the substitution writes for [pre] in the text [pre ++ t], when no
    match it takes in [pre] runs over the end of [pre]. *)
Definition written_before (pre t : text) : option text :=
  sub_upto (List.length (pre ++ t)) (List.length pre) (pre ++ t).

(** [a] is [b] with some lines left out: same lines, same order. *)
Fixpoint subseq (a b : list line) {struct b} : bool :=
  match a, b with
  | [], _ => true
  | _ :: _, [] => false
  | x :: a', y :: b' =>
      if list_eq_dec ascii_dec x y then subseq a' b' else subseq a b'
  end.

(** The marker texts stay folded while reasoning about arbitrary lines. *)
Opaque START SEPT ENDT.

(* ------------------------------------------------------------------ *)
(** ** Prefixes, lines and newlines *)

Section Prefix.

Lemma eqb_nl_false c : c <> nl -> Ascii.eqb nl c = false.
Proof. intro H. apply Ascii.eqb_neq. congruence. Qed.

Lemma startswith_app p s : startswith p (p ++ s) = true.
Proof.
  induction p as [|a p IH]; simpl; [reflexivity|].
  now rewrite Ascii.eqb_refl, IH.
Qed.

Lemma startswith_split p s :
  startswith p s = true -> s = p ++ skipn (List.length p) s.
Proof.
  revert s. induction p as [|a p IH]; intros [|c s]; simpl; try easy.
  intro H. apply andb_true_iff in H as [Hc Hp].
  apply Ascii.eqb_eq in Hc. subst c. f_equal. now apply IH.
Qed.

Lemma skipn_exact (p s : text) : skipn (List.length p) (p ++ s) = s.
Proof. induction p; simpl; auto. Qed.

Lemma startswith_weaken p q s :
  startswith (p ++ q) s = true -> startswith p s = true.
Proof.
  revert s. induction p as [|a p IH]; intros [|c s]; simpl; try easy.
  intro H. apply andb_true_iff in H as [Hc Hp].
  rewrite Hc. simpl. eauto.
Qed.


Lemma no_nl_cons c l : no_nl (c :: l) = true -> c <> nl /\ no_nl l = true.
Proof.
  unfold no_nl. simpl. intro H. apply andb_true_iff in H as [Hc Hl].
  split; [|exact Hl]. apply negb_true_iff in Hc. now apply Ascii.eqb_neq.
Qed.

Lemma no_nl_app a b : no_nl (a ++ b) = no_nl a && no_nl b.
Proof. unfold no_nl. apply forallb_app. Qed.

(** A newline-free prefix of a line followed by a line end lies within
    the line. *)
Lemma startswith_within p l t :
  no_nl p = true -> line_end t ->
  startswith p (l ++ t) = true -> startswith p l = true.
Proof.
  revert l. induction p as [|a p IH]; intros l Hp Ht; [reflexivity|].
  apply no_nl_cons in Hp as [Ha Hp].
  destruct l as [|c l]; simpl.
  - destruct t as [|c t]; simpl; [easy|]. simpl in Ht. subst c.
    intro H. apply andb_true_iff in H as [Hc _].
    apply Ascii.eqb_eq in Hc. contradiction.
  - intro H. apply andb_true_iff in H as [Hc H]. rewrite Hc. simpl. eauto.
Qed.

(** A newline-free text followed by a newline is a prefix of a line and
    its line end only when it is the whole line. *)
Lemma startswith_whole p l t :
  no_nl p = true -> no_nl l = true -> line_end t ->
  startswith (p ++ [nl]) (l ++ t) = true -> l = p.
Proof.
  revert l. induction p as [|a p IH]; intros l Hp Hl Ht.
  - destruct l as [|c l]; [reflexivity|]. simpl.
    apply no_nl_cons in Hl as [Hc _].
    intro H. apply andb_true_iff in H as [H _].
    apply Ascii.eqb_eq in H. congruence.
  - apply no_nl_cons in Hp as [Ha Hp].
    destruct l as [|c l]; simpl.
    + destruct t as [|c t]; simpl; [easy|]. simpl in Ht. subst c.
      intro H. apply andb_true_iff in H as [Hc _].
      apply Ascii.eqb_eq in Hc. contradiction.
    + apply no_nl_cons in Hl as [Hc Hl]. intro H.
      apply andb_true_iff in H as [Hac H].
      apply Ascii.eqb_eq in Hac. subst c. f_equal. eauto.
Qed.

End Prefix.

(* ------------------------------------------------------------------ *)
(** ** [split] and [join] *)

Section Lines.

Lemma tails_app a b : tails (a ++ b) = tails a ++ tails b.
Proof.
  induction a as [|l a IH]; simpl; [reflexivity|].
  now rewrite IH, app_assoc.
Qed.

Lemma join_tails ls : join ls = tl (tails ls).
Proof. destruct ls; reflexivity. Qed.

Lemma tails_cons_join l ls : tails (l :: ls) = nl :: join (l :: ls).
Proof. reflexivity. Qed.

Lemma line_end_tails ls t : line_end t -> line_end (tails ls ++ t).
Proof. destruct ls; simpl; auto. Qed.

Lemma split_nonempty s : split s <> [].
Proof.
  destruct s as [|c s]; simpl; [easy|].
  destruct (Ascii.eqb c nl); [easy|]. destruct (split s); easy.
Qed.

Lemma split_line l t :
  no_nl l = true -> split (l ++ nl :: t) = l :: split t.
Proof.
  induction l as [|c l IH]; intro Hl; simpl.
  - reflexivity.
  - apply no_nl_cons in Hl as [Hc Hl].
    apply Ascii.eqb_neq in Hc. rewrite Hc, IH by assumption. reflexivity.
Qed.

Lemma split_one l : no_nl l = true -> split l = [l].
Proof.
  induction l as [|c l IH]; intro Hl; simpl; [reflexivity|].
  apply no_nl_cons in Hl as [Hc Hl].
  apply Ascii.eqb_neq in Hc. rewrite Hc, IH by assumption. reflexivity.
Qed.

Lemma split_tails l ls :
  no_nl l = true -> forallb no_nl ls = true ->
  split (l ++ tails ls) = l :: ls.
Proof.
  revert l. induction ls as [|l' ls IH]; intros l Hl Hls; simpl.
  - rewrite app_nil_r. now apply split_one.
  - simpl in Hls. apply andb_true_iff in Hls as [Hl' Hls].
    rewrite split_line by assumption. f_equal. now apply IH.
Qed.

(** Splitting what was joined gives the lines back, for at least one line
    and lines free of newlines. *)
Lemma split_join ls :
  ls <> [] -> forallb no_nl ls = true -> split (join ls) = ls.
Proof.
  destruct ls as [|l ls]; [easy|]. intros _ H. simpl in H.
  apply andb_true_iff in H as [Hl Hls]. now apply split_tails.
Qed.

Lemma join_split s : join (split s) = s.
Proof.
  induction s as [|c s IH]; simpl; [reflexivity|].
  destruct (Ascii.eqb_spec c nl) as [->|Hc].
  - simpl. destruct (split s) as [|l ls] eqn:E.
    + now apply split_nonempty in E.
    + simpl in *. now rewrite IH.
  - destruct (split s) as [|l ls] eqn:E.
    + now apply split_nonempty in E.
    + simpl in *. now rewrite IH.
Qed.

Lemma split_no_nl s : forallb no_nl (split s) = true.
Proof.
  induction s as [|c s IH]; simpl; [reflexivity|].
  destruct (Ascii.eqb_spec c nl) as [->|Hc]; simpl; [exact IH|].
  destruct (split s) as [|l ls]; simpl in *.
  - unfold no_nl. simpl. apply Ascii.eqb_neq in Hc. now rewrite Hc.
  - apply andb_true_iff in IH as [Hl Hls]. rewrite Hls, andb_true_r.
    unfold no_nl in *. simpl. apply Ascii.eqb_neq in Hc. now rewrite Hc.
Qed.

End Lines.

(* ------------------------------------------------------------------ *)
(** ** The line filter, line by line *)

Section ScanFacts.

Lemma body_step st acc l :
  Scan.body (st, acc) l = (fst (step st l), acc ++ snd (step st l)).
Proof.
  unfold step, Scan.body.
  destruct (startswith START l); simpl; [now rewrite app_nil_r|].
  destruct (startswith SEPT l); simpl.
  { destruct (Scan.in_head st); simpl; now rewrite ?app_nil_r. }
  destruct (startswith ENDT l); simpl.
  { destruct (Scan.in_remote st); simpl; now rewrite ?app_nil_r. }
  destruct (Scan.in_remote st); simpl; now rewrite ?app_nil_r.
Qed.

Lemma loop_spec ls : forall st acc,
  Scan.loop (st, acc) ls = (final st ls, acc ++ emit st ls).
Proof.
  unfold Scan.loop, final.
  induction ls as [|l ls IH]; intros st acc; cbn [fold_left emit].
  - now rewrite app_nil_r.
  - rewrite body_step, IH. now rewrite app_assoc.
Qed.

Lemma filter_lines_emit ls : Scan.filter_lines ls = emit Scan.init ls.
Proof. unfold Scan.filter_lines, Scan.run. now rewrite loop_spec. Qed.

Lemma run_final ls : fst (Scan.run ls) = final Scan.init ls.
Proof. unfold Scan.run. now rewrite loop_spec. Qed.

Lemma final_app a b st : final st (a ++ b) = final (final st a) b.
Proof. unfold final. apply fold_left_app. Qed.

Lemma emit_app a : forall b st,
  emit st (a ++ b) = emit st a ++ emit (final st a) b.
Proof.
  induction a as [|l a IH]; intros b st; simpl; [reflexivity|].
  now rewrite IH, app_assoc.
Qed.

Lemma step_start st l :
  startswith START l = true ->
  step st l = ({| Scan.in_head := true; Scan.in_remote := Scan.in_remote st |}, []).
Proof. unfold step, Scan.body. now intros ->. Qed.

Lemma step_outside l :
  startswith START l = false -> step Scan.init l = (Scan.init, [l]).
Proof.
  unfold step, Scan.body. intros ->. simpl.
  now destruct (startswith SEPT l), (startswith ENDT l).
Qed.

Lemma step_local l :
  startswith START l = false -> startswith SEPT l = false ->
  step IN_LOCAL l = (IN_LOCAL, [l]).
Proof.
  unfold step, Scan.body. intros -> ->. simpl.
  now destruct (startswith ENDT l).
Qed.

Lemma step_incoming l :
  startswith START l = false -> startswith SEPT l = false ->
  startswith ENDT l = false ->
  step IN_INCOMING l = (IN_INCOMING, []).
Proof. unfold step, Scan.body. now intros -> -> ->. Qed.

Lemma content_line_inv l :
  content_line l = true ->
  no_nl l = true /\ startswith START l = false /\
  startswith SEPT l = false /\ startswith ENDT l = false.
Proof.
  unfold content_line. intro H.
  repeat (apply andb_true_iff in H as [H ?]).
  repeat match goal with
         | X : negb _ = true |- _ => apply negb_true_iff in X
         end.
  auto.
Qed.

Lemma outside_line_inv l :
  outside_line l = true ->
  no_nl l = true /\ contains START l = false /\ startswith START l = false.
Proof.
  unfold outside_line. intro H. apply andb_true_iff in H as [H1 H2].
  apply negb_true_iff in H2. repeat split; auto.
  unfold contains in H2.
  destruct l; cbn [anywhere] in H2; now apply orb_false_iff in H2 as [? _].
Qed.

(** Lines that do not open with the start marker pass through from the
    outside state, which they leave unchanged. *)
Lemma emit_outside ls :
  forallb (fun l => negb (startswith START l)) ls = true ->
  emit Scan.init ls = ls /\ final Scan.init ls = Scan.init.
Proof.
  induction ls as [|l ls IH]; simpl; [auto|]. intro H.
  apply andb_true_iff in H as [Hl Hls]. apply negb_true_iff in Hl.
  unfold final in *. simpl. rewrite step_outside by assumption. simpl.
  destruct (IH Hls) as [-> ->]. auto.
Qed.

Lemma emit_local ls :
  forallb content_line ls = true ->
  emit IN_LOCAL ls = ls /\ final IN_LOCAL ls = IN_LOCAL.
Proof.
  induction ls as [|l ls IH]; simpl; [auto|]. intro H.
  apply andb_true_iff in H as [Hl Hls].
  apply content_line_inv in Hl as (_ & H1 & H2 & _).
  unfold final in *. simpl. rewrite step_local by assumption. simpl.
  destruct (IH Hls) as [-> ->]. auto.
Qed.

Lemma emit_incoming ls :
  forallb content_line ls = true ->
  emit IN_INCOMING ls = [] /\ final IN_INCOMING ls = IN_INCOMING.
Proof.
  induction ls as [|l ls IH]; simpl; [auto|]. intro H.
  apply andb_true_iff in H as [Hl Hls].
  apply content_line_inv in Hl as (_ & H1 & H2 & H3).
  unfold final in *. simpl. rewrite step_incoming by assumption. simpl.
  destruct (IH Hls) as [-> ->]. auto.
Qed.
Lemma emit_cons st l ls :
  emit st (l :: ls) = snd (step st l) ++ emit (fst (step st l)) ls.
Proof. reflexivity. Qed.

Lemma final_cons st l ls : final st (l :: ls) = final (fst (step st l)) ls.
Proof. reflexivity. Qed.

Lemma step_init_start : step Scan.init START = (IN_LOCAL, []).
Proof. vm_compute. reflexivity. Qed.

Lemma step_local_sep : step IN_LOCAL SEPT = (IN_INCOMING, []).
Proof. vm_compute. reflexivity. Qed.

Lemma step_incoming_end id : step IN_INCOMING (end_line id) = (Scan.init, []).
Proof. with_strategy transparent [START SEPT ENDT] reflexivity. Qed.

(** One well-formed chunk, read from the outside state, leaves its resolved
    lines and the outside state.  Empty segments are fine here. *)
Lemma emit_chunk c :
  well_formed c = true ->
  emit Scan.init (chunk_lines c) = chunk_resolved c /\
  final Scan.init (chunk_lines c) = Scan.init.
Proof.
  destruct c as [l|lo inc id]; cbn [well_formed chunk_lines chunk_resolved]; intro H.
  - apply outside_line_inv in H as (_ & _ & H).
    rewrite emit_cons, final_cons, step_outside by assumption. auto.
  - repeat (apply andb_true_iff in H as [H ?]).
    rewrite emit_cons, final_cons, step_init_start. cbn [fst snd].
    rewrite emit_app, final_app.
    destruct (emit_local lo) as [-> ->]; [assumption|].
    rewrite emit_cons, final_cons, step_local_sep. cbn [fst snd].
    rewrite emit_app, final_app.
    destruct (emit_incoming inc) as [-> ->]; [assumption|].
    rewrite emit_cons, final_cons, step_incoming_end.
    split; [|reflexivity]. cbn. now rewrite app_nil_r.
Qed.

Lemma emit_chunks d : forall rest,
  forallb well_formed d = true ->
  emit Scan.init (flat_map chunk_lines d ++ rest)
  = flat_map chunk_resolved d ++ emit Scan.init rest.
Proof.
  induction d as [|c d IH]; intros rest H; [reflexivity|].
  cbn [forallb flat_map] in *.
  apply andb_true_iff in H as [Hc Hd].
  rewrite <- !app_assoc, emit_app.
  destruct (emit_chunk c Hc) as [-> ->]. now rewrite IH.
Qed.

End ScanFacts.

(* ------------------------------------------------------------------ *)
(** ** Scanning a text line by line *)

Section Anywhere.

Variable P : text -> bool.

(** [P] looks for something that begins with a newline. *)
Hypothesis P_nl : forall c s, c <> nl -> P (c :: s) = false.
Hypothesis P_nil : P [] = false.

Lemma anywhere_line l t :
  no_nl l = true -> anywhere P (l ++ t) = anywhere P t.
Proof.
  induction l as [|c l IH]; intro Hl; [reflexivity|].
  apply no_nl_cons in Hl as [Hc Hl].
  cbn [app anywhere]. rewrite P_nl by assumption. now apply IH.
Qed.

Lemma anywhere_lines ls : forall l0 t,
  no_nl l0 = true -> forallb no_nl ls = true ->
  line_starts_fail P ls t = true ->
  anywhere P (l0 ++ tails ls ++ t) = anywhere P t.
Proof.
  induction ls as [|l ls IH]; intros l0 t H0 Hls Hf.
  - now apply anywhere_line.
  - cbn [forallb line_starts_fail tails] in *.
    apply andb_true_iff in Hls as [Hl Hls].
    apply andb_true_iff in Hf as [Hf1 Hf]. apply negb_true_iff in Hf1.
    rewrite anywhere_line by assumption.
    rewrite <- !app_comm_cons, <- app_assoc. cbn [anywhere].
    rewrite Hf1. now apply IH.
Qed.

End Anywhere.

Section AnywhereFacts.

Lemma anywhere_cons P c s : anywhere P (c :: s) = P (c :: s) || anywhere P s.
Proof. reflexivity. Qed.

Lemma anywhere_suffix P a s :
  anywhere P (a ++ s) = false -> anywhere P s = false.
Proof.
  induction a as [|c a IH]; [auto|]. cbn [app anywhere]. intro H.
  apply orb_false_iff in H as [_ H]. auto.
Qed.

Lemma anywhere_skipn P n s :
  anywhere P s = false -> anywhere P (skipn n s) = false.
Proof.
  intro H. apply anywhere_suffix with (a := firstn n s).
  now rewrite firstn_skipn.
Qed.

Lemma anywhere_here P s : anywhere P s = false -> P s = false.
Proof. destruct s; cbn [anywhere]; intro H; now apply orb_false_iff in H. Qed.


Lemma line_starts_fail_weaken (P Q : text -> bool) ls t :
  (forall x, Q x = false -> P x = false) ->
  line_starts_fail Q ls t = true -> line_starts_fail P ls t = true.
Proof.
  intro HPQ. induction ls as [|l ls IH]; cbn [line_starts_fail]; [auto|].
  intro H. apply andb_true_iff in H as [H1 H2]. apply negb_true_iff in H1.
  rewrite (HPQ _ H1). auto.
Qed.

Lemma line_starts_fail_app P a : forall b t,
  line_starts_fail P (a ++ b) t
  = line_starts_fail P a (tails b ++ t) && line_starts_fail P b t.
Proof.
  induction a as [|l a IH]; intros b t; [reflexivity|].
  cbn [app line_starts_fail]. rewrite IH, tails_app.
  now rewrite <- !app_assoc, andb_assoc.
Qed.

(** No line that differs from the separator text lets the separator
    literal match at its start. *)
Lemma lines_fail_sep ls : forall t,
  line_end t ->
  forallb (fun l => no_nl l && negb (startswith SEPT l)) ls = true ->
  line_starts_fail (startswith SEP) ls t = true.
Proof.
  induction ls as [|l ls IH]; intros t Ht H; [reflexivity|].
  cbn [forallb line_starts_fail] in *.
  apply andb_true_iff in H as [Hl Hls].
  apply andb_true_iff in Hl as [Hnl Hs]. apply negb_true_iff in Hs.
  rewrite IH by assumption. rewrite andb_true_r. apply negb_true_iff.
  destruct (startswith SEP (nl :: l ++ tails ls ++ t)) eqn:E; [|reflexivity].
  unfold SEP in E. cbn [startswith] in E.
  apply andb_true_iff in E as [_ E].
  apply startswith_whole in E; auto using line_end_tails.
  subst l. now rewrite <- (app_nil_r SEPT), startswith_app in Hs.
Qed.

(** No line that does not open with the end-marker text lets the
    end-marker literal match at its start. *)
Lemma lines_fail_end ls : forall t,
  line_end t ->
  forallb (fun l => no_nl l && negb (startswith ENDT l)) ls = true ->
  line_starts_fail (startswith ENDP) ls t = true.
Proof.
  induction ls as [|l ls IH]; intros t Ht H; [reflexivity|].
  cbn [forallb line_starts_fail] in *.
  apply andb_true_iff in H as [Hl Hls].
  apply andb_true_iff in Hl as [Hnl Hs]. apply negb_true_iff in Hs.
  rewrite IH by assumption. rewrite andb_true_r. apply negb_true_iff.
  destruct (startswith ENDP (nl :: l ++ tails ls ++ t)) eqn:E; [|reflexivity].
  unfold ENDP in E. cbn [startswith] in E.
  apply andb_true_iff in E as [_ E].
  apply startswith_within in E; auto using line_end_tails.
  apply startswith_weaken in E. congruence.
Qed.

Lemma content_lines_not_sep ls :
  forallb content_line ls = true ->
  forallb (fun l => no_nl l && negb (startswith SEPT l)) ls = true.
Proof.
  induction ls as [|l ls IH]; cbn [forallb]; [auto|]. intro H.
  apply andb_true_iff in H as [Hl Hls].
  apply content_line_inv in Hl as (-> & _ & -> & _). auto.
Qed.

Lemma content_lines_not_end ls :
  forallb content_line ls = true ->
  forallb (fun l => no_nl l && negb (startswith ENDT l)) ls = true.
Proof.
  induction ls as [|l ls IH]; cbn [forallb]; [auto|]. intro H.
  apply andb_true_iff in H as [Hl Hls].
  apply content_line_inv in Hl as (-> & _ & _ & ->). auto.
Qed.

End AnywhereFacts.

(* ------------------------------------------------------------------ *)
(** ** The matcher *)

Section Loops.

Import Regex.

Lemma consume_nil m : consume m [] = m.
Proof. unfold consume. destruct m as [[] g]; simpl; now rewrite ?app_nil_r. Qed.

Lemma consume_app m a b : consume m (a ++ b) = consume (consume m a) b.
Proof. unfold consume. destruct m as [[] g]; simpl; now rewrite ?app_assoc. Qed.

Lemma consume_closed g x :
  consume {| opened := false; grp := g |} x = {| opened := false; grp := g |}.
Proof. reflexivity. Qed.

Lemma consume_open g x :
  consume {| opened := true; grp := g |} x = {| opened := true; grp := g ++ x |}.
Proof. reflexivity. Qed.

Lemma exec_literal_fail p k m s :
  startswith p s = false -> exec (LITERAL p :: k) m s = None.
Proof. cbn [exec]. now intros ->. Qed.

Lemma exec_literal p k m s :
  exec (LITERAL p :: k) m (p ++ s) = exec k (consume m p) s.
Proof. cbn [exec]. now rewrite startswith_app, skipn_exact. Qed.

Variable K : marks -> text -> option matched.
Variable P : text -> bool.

(** The continuation fails wherever [P] does, and [P] needs a newline. *)
Hypothesis K_fails : forall m s, P s = false -> K m s = None.
Hypothesis P_nl : forall c s, c <> nl -> P (c :: s) = false.

Lemma lazy_loop_unfold m s :
  lazy_loop any K m s =
  match K m s with
  | Some r => Some r
  | None => match s with
            | c :: s' => lazy_loop any K (consume m [c]) s'
            | [] => None
            end
  end.
Proof. destruct s; reflexivity. Qed.

(** The lazy repeat walks through a line without a halt. *)
Lemma lazy_line l : forall m t,
  no_nl l = true ->
  lazy_loop any K m (l ++ t) = lazy_loop any K (consume m l) t.
Proof.
  induction l as [|c l IH]; intros m t Hl.
  - now rewrite consume_nil.
  - apply no_nl_cons in Hl as [Hc Hl].
    rewrite lazy_loop_unfold. cbn [app].
    rewrite K_fails by auto. rewrite IH by assumption.
    now rewrite <- consume_app.
Qed.

(** ... and through whole lines at whose starts the continuation fails. *)
Lemma lazy_lines ls : forall l0 m t,
  no_nl l0 = true -> forallb no_nl ls = true ->
  line_starts_fail P ls t = true ->
  lazy_loop any K m (l0 ++ tails ls ++ t)
  = lazy_loop any K (consume m (l0 ++ tails ls)) t.
Proof.
  induction ls as [|l ls IH]; intros l0 m t H0 Hls Hf.
  - cbn [tails app]. rewrite app_nil_r. now apply lazy_line.
  - cbn [forallb line_starts_fail tails] in *.
    apply andb_true_iff in Hls as [Hl Hls].
    apply andb_true_iff in Hf as [Hf1 Hf]. apply negb_true_iff in Hf1.
    rewrite lazy_line by assumption.
    rewrite <- !app_comm_cons, <- app_assoc.
    rewrite lazy_loop_unfold, K_fails by assumption.
    rewrite IH by assumption.
    f_equal. rewrite <- !consume_app. f_equal.
Qed.

(** Where [P] holds nowhere the lazy repeat runs to the end and fails. *)
Lemma lazy_none s : forall m,
  anywhere P s = false -> lazy_loop any K m s = None.
Proof.
  induction s as [|c s IH]; intros m H; rewrite lazy_loop_unfold;
    cbn [anywhere] in H; apply orb_false_iff in H as [H1 H2];
    rewrite K_fails by assumption; auto.
Qed.

End Loops.

Section Matcher.

Import Regex.

Lemma greedy_loop_unfold K m s :
  greedy_loop not_nl K m s =
  match s with
  | c :: s' =>
      if not_nl c then
        match greedy_loop not_nl K (consume m [c]) s' with
        | Some r => Some r
        | None => K (consume m [c]) s'
        end
      else None
  | [] => None
  end.
Proof. destruct s; reflexivity. Qed.

Lemma greedy_stops K m t : line_end t -> greedy_loop not_nl K m t = None.
Proof. destruct t as [|c t]; [reflexivity|]. simpl. now intros ->. Qed.

(** The greedy repeat at the end of the pattern takes the whole rest of
    the line. *)
Lemma greedy_line c id : forall m t,
  no_nl (c :: id) = true -> line_end t ->
  greedy_loop not_nl (exec []) m ((c :: id) ++ t)
  = Some (grp (consume m (c :: id)), t).
Proof.
  revert c. induction id as [|c' id IH]; intros c m t Hid Ht.
  - apply no_nl_cons in Hid as [Hc _].
    rewrite greedy_loop_unfold. cbn [app].
    unfold not_nl at 1. apply Ascii.eqb_neq in Hc. rewrite Hc. cbn [negb].
    now rewrite greedy_stops.
  - apply no_nl_cons in Hid as [Hc Hid].
    rewrite greedy_loop_unfold. cbn [app].
    unfold not_nl at 1. apply Ascii.eqb_neq in Hc. rewrite Hc. cbn [negb].
    change (c' :: id ++ t) with ((c' :: id) ++ t).
    rewrite IH by assumption. now rewrite <- consume_app.
Qed.

Lemma startswith_nl_head p c s :
  c <> nl -> startswith (nl :: p) (c :: s) = false.
Proof. intro H. cbn [startswith]. now rewrite eqb_nl_false. Qed.

Lemma end_here_nl c s : c <> nl -> end_here (c :: s) = false.
Proof. intro H. unfold end_here, ENDP. now rewrite startswith_nl_head. Qed.

Lemma sep_here_nl c s : c <> nl -> sep_here (c :: s) = false.
Proof. intro H. unfold sep_here, SEP. now rewrite startswith_nl_head. Qed.

Lemma after_open_unfold m s :
  exec after_open m s =
  if startswith SEP s
  then lazy_loop any (exec after_sep) {| opened := false; grp := grp m |}
         (skipn (List.length SEP) s)
  else None.
Proof. reflexivity. Qed.

Lemma after_sep_unfold m s :
  exec after_sep m s =
  if startswith ENDP s
  then greedy_loop not_nl (exec []) (consume m ENDP)
         (skipn (List.length ENDP) s)
  else None.
Proof. reflexivity. Qed.

(** Past the separator the matcher fails wherever no accepted end marker
    begins. *)
Lemma after_sep_fails m s : end_here s = false -> exec after_sep m s = None.
Proof.
  unfold end_here. rewrite after_sep_unfold. intro H.
  destruct (startswith ENDP s); [|reflexivity]. cbn [andb] in H.
  destruct (skipn (List.length ENDP) s) as [|c r]; [reflexivity|].
  rewrite greedy_loop_unfold. now rewrite H.
Qed.

(** While group 1 is read the matcher fails wherever no separator with an
    end marker after it begins. *)
Lemma after_open_fails m s : sep_here s = false -> exec after_open m s = None.
Proof.
  unfold sep_here. rewrite after_open_unfold. intro H.
  destruct (startswith SEP s); [|reflexivity]. cbn [andb] in H.
  apply lazy_none with (P := end_here); auto using after_sep_fails.
Qed.

Lemma match_at_unfold s :
  match_at s =
  if startswith START_NL s
  then lazy_loop any (exec after_open) {| opened := true; grp := [] |}
         (skipn (List.length START_NL) s)
  else None.
Proof. reflexivity. Qed.

(** No match begins where no complete triple begins. *)
Lemma match_at_none s : block_here s = false -> match_at s = None.
Proof.
  unfold block_here. rewrite match_at_unfold. intro H.
  destruct (startswith START_NL s); [|reflexivity]. cbn [andb] in H.
  apply lazy_none with (P := sep_here); auto using after_open_fails.
Qed.

(** The chosen match on a block whose segments hold at least one line
    each: group 1 is the local segment and the match ends with the line of
    the end marker. *)
Lemma match_block l0 lo i0 inc c id t :
  forallb content_line (l0 :: lo) = true ->
  forallb content_line (i0 :: inc) = true ->
  no_nl (c :: id) = true -> line_end t ->
  match_at (START_NL ++ (l0 ++ tails lo) ++ SEP ++ (i0 ++ tails inc)
            ++ ENDP ++ (c :: id) ++ t)
  = Some (l0 ++ tails lo, t).
Proof.
  intros Hlo Hinc Hid Ht.
  rewrite match_at_unfold, startswith_app, skipn_exact.
  cbn [forallb] in Hlo, Hinc.
  apply andb_true_iff in Hlo as [Hl0 Hlo].
  apply andb_true_iff in Hinc as [Hi0 Hinc].
  apply content_line_inv in Hl0 as (Hl0 & _).
  apply content_line_inv in Hi0 as (Hi0 & _).
  (* group 1: through the local segment, up to the separator *)
  rewrite <- app_assoc.
  rewrite lazy_lines with (P := startswith SEP).
  2:{ intros m s H. now apply exec_literal_fail. }
  2:{ intros; now apply startswith_nl_head. }
  2: assumption.
  2:{ clear -Hlo. induction lo; cbn [forallb] in *; [reflexivity|].
      apply andb_true_iff in Hlo as [H1 H2].
      apply content_line_inv in H1 as (-> & _). auto. }
  2:{ apply lines_fail_sep; [reflexivity|]. now apply content_lines_not_sep. }
  rewrite lazy_loop_unfold, after_open_unfold.
  rewrite startswith_app, skipn_exact. rewrite consume_open. cbn [grp app].
  (* through the incoming segment, up to the end marker *)
  rewrite <- app_assoc.
  rewrite lazy_lines with (P := startswith ENDP).
  2:{ intros m s H. now apply exec_literal_fail. }
  2:{ intros; now apply startswith_nl_head. }
  2: assumption.
  2:{ clear -Hinc. induction inc; cbn [forallb] in *; [reflexivity|].
      apply andb_true_iff in Hinc as [H1 H2].
      apply content_line_inv in H1 as (-> & _). auto. }
  2:{ apply lines_fail_end; [reflexivity|]. now apply content_lines_not_end. }
  rewrite lazy_loop_unfold, after_sep_unfold.
  rewrite startswith_app, skipn_exact. rewrite !consume_closed.
  change (c :: id ++ t) with ((c :: id) ++ t).
  rewrite greedy_line by assumption. reflexivity.
Qed.

End Matcher.

(* ------------------------------------------------------------------ *)
(** ** The substitution *)

Section Substitution.

Import Regex.

Lemma lazy_loop_shrinks cls K :
  (forall m s g r, K m s = Some (g, r) -> List.length r <= List.length s) ->
  forall s m g r, lazy_loop cls K m s = Some (g, r) ->
                  List.length r <= List.length s.
Proof.
  intros HK. induction s as [|c s IH]; intros m g r; cbn [lazy_loop].
  - destruct (K m []) as [[g' r']|] eqn:E; [|discriminate].
    intro H. injection H as <- <-. eauto.
  - destruct (K m (c :: s)) as [[g' r']|] eqn:E.
    + intro H. injection H as <- <-. eauto.
    + destruct (cls c); [|discriminate]. intro H. apply IH in H.
      cbn [List.length]. lia.
Qed.

Lemma greedy_loop_shrinks cls K :
  (forall m s g r, K m s = Some (g, r) -> List.length r <= List.length s) ->
  forall s m g r, greedy_loop cls K m s = Some (g, r) ->
                  List.length r <= List.length s.
Proof.
  intros HK. induction s as [|c s IH]; intros m g r; cbn [greedy_loop];
    [discriminate|].
  destruct (cls c); [|discriminate].
  destruct (greedy_loop cls K (consume m [c]) s) as [[g' r']|] eqn:E.
  - intro H. injection H as <- <-. apply IH in E. cbn [List.length]. lia.
  - intro H. apply HK in H. cbn [List.length]. lia.
Qed.

(** The matcher reads forward: what it leaves is no longer than what it
    was given. *)
Lemma exec_shrinks ops : forall m s g r,
  exec ops m s = Some (g, r) -> List.length r <= List.length s.
Proof.
  induction ops as [|o k IH]; intros m s g r; cbn [exec].
  - intro H. injection H as <- <-. lia.
  - destruct o.
    + destruct (startswith p s); [|discriminate]. intro H.
      apply IH in H. rewrite length_skipn in H. lia.
    + apply IH.
    + apply IH.
    + apply lazy_loop_shrinks. exact IH.
    + apply greedy_loop_shrinks. exact IH.
Qed.

(** A match of the pattern is never empty. *)
Lemma match_at_shrinks s g r :
  match_at s = Some (g, r) -> List.length r < List.length s.
Proof.
  rewrite match_at_unfold.
  destruct (startswith START_NL s) eqn:E; [|discriminate].
  intro H. apply startswith_split in E.
  apply (lazy_loop_shrinks any _ (exec_shrinks after_open)) in H.
  rewrite length_skipn in H.
  rewrite E, length_app.
  assert (0 < List.length START_NL) by
    (with_strategy transparent [START] (cbn; lia)).
  rewrite E, length_app in H. lia.
Qed.

(** Fuel beyond the length of the text changes nothing: the scan is over
    before the fuel is. *)
Lemma sub_fuel_enough n : forall m s,
  List.length s <= n -> List.length s <= m -> sub_fuel n s = sub_fuel m s.
Proof.
  induction n as [|n IH]; intros m s Hn Hm.
  - destruct s; [|cbn in Hn; lia]. now destruct m.
  - destruct m as [|m].
    + destruct s; [reflexivity|cbn in Hm; lia].
    + destruct s as [|c s]; [reflexivity|]. cbn [sub_fuel].
      cbn [List.length] in Hn, Hm.
      destruct (match_at (c :: s)) as [[g r]|] eqn:E.
      * apply match_at_shrinks in E. cbn [List.length] in E.
        f_equal. apply IH; lia.
      * f_equal. apply IH; lia.
Qed.

Lemma sub_nil : sub [] = [].
Proof. reflexivity. Qed.

(** The substitution, one scan step at a time. *)
Lemma sub_cons c s :
  sub (c :: s) =
  match match_at (c :: s) with
  | Some (g, rest) => g ++ sub rest
  | None => c :: sub s
  end.
Proof.
  unfold sub. cbn [List.length sub_fuel].
  destruct (match_at (c :: s)) as [[g r]|] eqn:E.
  - apply match_at_shrinks in E. cbn [List.length] in E.
    f_equal. apply sub_fuel_enough; lia.
  - reflexivity.
Qed.

Lemma sub_nl t : sub (nl :: t) = nl :: sub t.
Proof.
  rewrite sub_cons, match_at_none; [reflexivity|].
  unfold block_here, START_NL.
  with_strategy transparent [START] reflexivity.
Qed.

(** A text in which no complete triple begins is left as it is. *)
Lemma sub_no_block s : has_block s = false -> sub s = s.
Proof.
  unfold has_block. induction s as [|c s IH]; [reflexivity|].
  cbn [anywhere]. intro H. apply orb_false_iff in H as [H1 H2].
  rewrite sub_cons, match_at_none by assumption. f_equal. auto.
Qed.

Lemma block_here_sep s : sep_then_end s = false -> has_block s = false.
Proof.
  unfold has_block. induction s as [|c s IH]; intro H.
  - reflexivity.
  - cbn [anywhere]. apply orb_false_iff. split.
    + unfold block_here, sep_then_end.
      rewrite (anywhere_skipn _ _ _ H). apply andb_false_r.
    + apply IH. unfold sep_then_end in *. cbn [anywhere] in H.
      now apply orb_false_iff in H.
Qed.

(** A line outside the blocks is copied. *)
Lemma sub_outside_line l : forall t,
  no_nl l = true -> contains START l = false -> line_end t ->
  sub (l ++ t) = l ++ sub t.
Proof.
  induction l as [|c l IH]; intros t Hl Hc Ht; [reflexivity|].
  cbn [app]. rewrite sub_cons, match_at_none.
  - f_equal. apply no_nl_cons in Hl as [_ Hl].
    unfold contains in *. cbn [anywhere] in Hc.
    apply orb_false_iff in Hc as [_ Hc]. auto.
  - unfold block_here.
    destruct (startswith START_NL (c :: l ++ t)) eqn:E; [|reflexivity].
    unfold START_NL in E. change (c :: l ++ t) with ((c :: l) ++ t) in E.
    apply startswith_whole in E; auto.
    rewrite E in Hc. unfold contains in Hc.
    apply anywhere_here in Hc. rewrite <- (app_nil_r START) in Hc.
    rewrite startswith_app in Hc. discriminate.
Qed.

End Substitution.

(* ------------------------------------------------------------------ *)
(** ** Whole documents under the substitution *)

Section Documents.

Import Regex.

Lemma block_text l0 lo i0 inc id t :
  tails (chunk_lines (Conflict (l0 :: lo) (i0 :: inc) id)) ++ t
  = nl :: START_NL ++ (l0 ++ tails lo) ++ SEP ++ (i0 ++ tails inc)
       ++ ENDP ++ id ++ t.
Proof.
  unfold START_NL, SEP, ENDP. cbn [chunk_lines tails app].
  repeat (rewrite ?tails_app, <- ?app_assoc, <- ?app_comm_cons;
          cbn [tails app]).
  unfold end_line. now rewrite ?app_nil_r, <- ?app_assoc.
Qed.

(** Each chunk of a document is resolved on its own: a plain line is
    copied, a block leaves its local segment, and the scan goes on after
    the chunk. *)
Lemma sub_chunks d : forall t,
  forallb well_formed d = true -> forallb both_segments d = true ->
  line_end t ->
  sub (tails (flat_map chunk_lines d) ++ t)
  = tails (flat_map chunk_resolved d) ++ sub t.
Proof.
  induction d as [|c d IH]; intros t Hw Hb Ht; [reflexivity|].
  cbn [forallb flat_map] in *.
  apply andb_true_iff in Hw as [Hc Hw]. apply andb_true_iff in Hb as [Hbc Hb].
  rewrite !tails_app, <- !app_assoc.
  assert (Hrest : line_end (tails (flat_map chunk_lines d) ++ t))
    by now apply line_end_tails.
  destruct c as [l|lo inc id].
  - cbn [chunk_lines chunk_resolved tails well_formed] in *.
    apply outside_line_inv in Hc as (Hl & Hs & _).
    rewrite !app_nil_r, <- !app_comm_cons, sub_nl.
    rewrite sub_outside_line by assumption. now rewrite IH.
  - cbn [well_formed both_segments chunk_resolved] in *.
    repeat (apply andb_true_iff in Hc as [Hc ?]).
    apply andb_true_iff in Hbc as [Hlo Hinc].
    destruct lo as [|l0 lo]; [discriminate|].
    destruct inc as [|i0 inc]; [discriminate|].
    destruct id as [|ch id]; [discriminate|].
    rewrite block_text, sub_nl.
    assert (HS : exists x y, START_NL = x :: y)
      by (with_strategy transparent [START] (cbn; eauto)).
    destruct HS as (x & y & HS).
    pose proof (@match_block l0 lo i0 inc ch id _ Hc H1 H0 Hrest) as M.
    rewrite HS in *. cbn [app] in *. rewrite sub_cons, M.
    rewrite IH by assumption. reflexivity.
Qed.

Lemma sub_join_chunks d t :
  forallb well_formed d = true -> forallb both_segments d = true ->
  line_end t ->
  sub (join (flat_map chunk_lines d) ++ t)
  = join (flat_map chunk_resolved d) ++ sub t.
Proof.
  intros Hw Hb Ht. pose proof (sub_chunks d t Hw Hb Ht) as H.
  destruct d as [|c d]; [reflexivity|].
  assert (Hne : exists l ls, flat_map chunk_lines (c :: d) = l :: ls).
  { destruct c; cbn; eauto. }
  destruct Hne as (l & ls & E). rewrite E in *.
  rewrite tails_cons_join in H. cbn [app] in H. rewrite sub_nl in H.
  destruct (flat_map chunk_resolved (c :: d)) as [|r rs] eqn:R.
  - exfalso. destruct c as [?|[|? ?] ? ?]; cbn in R, Hb; discriminate.
  - rewrite tails_cons_join in H. cbn [app] in H. now injection H.
Qed.

(** A whole document of well-formed chunks, each block with lines in both
    segments, is resolved chunk by chunk. *)
Lemma sub_render d :
  forallb well_formed d = true -> forallb both_segments d = true ->
  sub (render d) = resolved d.
Proof.
  intros Hw Hb. unfold render, resolved.
  rewrite <- (app_nil_r (join (flat_map chunk_lines d))).
  rewrite sub_join_chunks by (auto; exact I). now rewrite sub_nil, app_nil_r.
Qed.

Lemma has_block_cons c s :
  has_block (c :: s) = block_here (c :: s) || has_block s.
Proof. reflexivity. Qed.

(** A start marker whose rest holds no separator-then-end is left alone
    together with that rest. *)
Lemma sub_dangling rest :
  sep_then_end rest = false -> sub (START ++ nl :: rest) = START ++ nl :: rest.
Proof.
  intro H. apply sub_no_block.
  pose proof (block_here_sep _ H) as Hb.
  assert (H0 : block_here (START_NL ++ rest) = false).
  { unfold block_here. now rewrite startswith_app, skipn_exact, H. }
  unfold START_NL in H0. rewrite <- app_assoc in H0. cbn [app] in H0.
  with_strategy transparent [START]
    (cbn [START lit list_ascii_of_string app] in *).
  rewrite has_block_cons, H0. cbn [orb].
  repeat (rewrite has_block_cons;
          match goal with
          | |- block_here ?s || _ = false =>
              replace (block_here s) with false
                by (with_strategy transparent [START] reflexivity)
          end; cbn [orb]).
  exact Hb.
Qed.

End Documents.

(* ------------------------------------------------------------------ *)
(** ** What the filter writes *)

Section ScanResults.

Lemma step_out st l :
  snd (step st l) = [] \/
  (snd (step st l) = [l] /\ startswith START l = false).
Proof.
  unfold step, Scan.body.
  destruct (startswith START l), (startswith SEPT l), (startswith ENDT l),
    (Scan.in_head st), (Scan.in_remote st); cbn; auto.
Qed.

(** Every line the filter keeps is one of the lines it read, and does not
    open with the start marker. *)
Lemma emit_kept Q ls : forall st,
  forallb Q ls = true ->
  forallb (fun l => Q l && negb (startswith START l)) (emit st ls) = true.
Proof.
  induction ls as [|l ls IH]; intros st H; [reflexivity|].
  cbn [forallb emit] in *. apply andb_true_iff in H as [Hl Hls].
  rewrite forallb_app, IH by assumption. rewrite andb_true_r.
  destruct (step_out st l) as [-> | [-> Hs]]; [reflexivity|].
  cbn [forallb]. now rewrite Hl, Hs.
Qed.

Lemma forallb_weaken {A} (Q R : A -> bool) ls :
  (forall x, Q x = true -> R x = true) ->
  forallb Q ls = true -> forallb R ls = true.
Proof.
  intro H. induction ls as [|l ls IH]; cbn [forallb]; [auto|]. intro F.
  apply andb_true_iff in F as [F1 F2]. rewrite (H _ F1). auto.
Qed.

(** The lines of what the filter writes. *)
Lemma split_resolve doc :
  forallb (fun l => negb (startswith START l)) (split (Scan.resolve doc)) = true.
Proof.
  unfold Scan.resolve. rewrite filter_lines_emit.
  pose proof (emit_kept no_nl (split doc) Scan.init (split_no_nl doc)) as H.
  destruct (emit Scan.init (split doc)) as [|l ls] eqn:E.
  - vm_compute. reflexivity.
  - rewrite split_join; [| easy |].
    + revert H. apply forallb_weaken. intros x Hx.
      now apply andb_true_iff in Hx.
    + revert H. apply forallb_weaken. intros x Hx.
      now apply andb_true_iff in Hx.
Qed.

(** A text none of whose lines opens with the start marker is written
    back as it is. *)
Lemma scan_fixed s :
  forallb (fun l => negb (startswith START l)) (split s) = true ->
  Scan.resolve s = s.
Proof.
  intro H. unfold Scan.resolve. rewrite filter_lines_emit.
  destruct (emit_outside _ H) as [-> _]. apply join_split.
Qed.

(** The filter changes nothing in what it has written. *)
Lemma scan_idempotent doc : Scan.resolve (Scan.resolve doc) = Scan.resolve doc.
Proof. apply scan_fixed, split_resolve. Qed.

Lemma no_nl_marker_texts :
  no_nl START = true /\ no_nl SEPT = true /\ no_nl ENDT = true.
Proof. vm_compute. auto. Qed.

Lemma chunk_lines_no_nl c :
  well_formed c = true -> forallb no_nl (chunk_lines c) = true.
Proof.
  destruct c as [l|lo inc id]; cbn [well_formed chunk_lines]; intro H.
  - apply outside_line_inv in H as (H & _). cbn [forallb]. now rewrite H.
  - repeat (apply andb_true_iff in H as [H ?]).
    destruct no_nl_marker_texts as (HS & HP & HE).
    assert (C : forall ls, forallb content_line ls = true ->
                           forallb no_nl ls = true).
    { intro ls. apply forallb_weaken. intros x Hx.
      now apply content_line_inv in Hx. }
    cbn [forallb]. rewrite HS. cbn [andb].
    rewrite forallb_app. rewrite (C _ H). cbn [forallb andb]. rewrite HP.
    rewrite forallb_app. rewrite (C _ H2). cbn [forallb andb].
    unfold end_line. rewrite !no_nl_app, HE, H1. reflexivity.
Qed.

Lemma flat_lines_no_nl d :
  forallb well_formed d = true ->
  forallb no_nl (flat_map chunk_lines d) = true.
Proof.
  induction d as [|c d IH]; cbn [forallb flat_map]; [auto|]. intro H.
  apply andb_true_iff in H as [Hc Hd].
  now rewrite forallb_app, chunk_lines_no_nl, IH.
Qed.

(** The filter resolves every well-formed chunk, whatever the sizes of
    the segments. *)
Lemma scan_render d :
  forallb well_formed d = true -> Scan.resolve (render d) = resolved d.
Proof.
  intro H. unfold Scan.resolve, render, resolved. rewrite filter_lines_emit.
  destruct d as [|c d]; [reflexivity|].
  rewrite split_join.
  - rewrite <- (app_nil_r (flat_map chunk_lines (c :: d))).
    rewrite emit_chunks by assumption. now rewrite app_nil_r.
  - destruct c; cbn; discriminate.
  - now apply flat_lines_no_nl.
Qed.

(** Lines that open with no marker text, read in any state: dropped while
    [in_remote] holds, kept otherwise; the flags stay. *)
Lemma emit_unmarked ls : forall st,
  forallb (fun l => negb (marker_line l)) ls = true ->
  emit st ls = (if Scan.in_remote st then [] else ls) /\ final st ls = st.
Proof.
  induction ls as [|l ls IH]; intros st H.
  - split; [now destruct (Scan.in_remote st)|reflexivity].
  - cbn [forallb] in H. apply andb_true_iff in H as [Hl Hls].
    apply negb_true_iff in Hl. unfold marker_line in Hl.
    apply orb_false_iff in Hl as [Hl H3]. apply orb_false_iff in Hl as [H1 H2].
    assert (S : step st l = (st, if Scan.in_remote st then [] else [l])).
    { unfold step, Scan.body. rewrite H1, H2, H3.
      now destruct (Scan.in_remote st). }
    unfold final in *. cbn [emit fold_left]. rewrite S. cbn [fst snd].
    destruct (IH st Hls) as [-> ->].
    split; [now destruct (Scan.in_remote st)|reflexivity].
Qed.

Lemma sep_not_start l : startswith SEPT l = true -> startswith START l = false.
Proof.
  destruct l as [|c l]; [with_strategy transparent [SEPT] discriminate|].
  with_strategy transparent [START SEPT] (cbn [startswith START SEPT lit list_ascii_of_string]).
  intro H. apply andb_true_iff in H as [H _].
  apply Ascii.eqb_eq in H. subst c. reflexivity.
Qed.

End ScanResults.

(* ------------------------------------------------------------------ *)
(** ** What the substitution writes *)

Section RegexResults.

Import Regex.




(** A text no line of which opens with the separator text holds no
    separator of the pattern. *)
Lemma no_sep_lines s :
  forallb (fun l => negb (startswith SEPT l)) (split s) = true ->
  sep_then_end s = false.
Proof.
  intro H. pose proof (split_no_nl s) as N. rewrite <- (join_split s).
  destruct (split s) as [|l ls]; [reflexivity|].
  cbn [forallb join] in *.
  apply andb_true_iff in H as [_ H]. apply andb_true_iff in N as [Nl Nls].
  unfold sep_then_end. rewrite <- (app_nil_r (tails ls)).
  rewrite anywhere_lines; auto using sep_here_nl.
  apply line_starts_fail_weaken with (Q := startswith SEP).
  - intros x Hx. unfold sep_here. now rewrite Hx.
  - apply lines_fail_sep; [exact I|].
    clear -H Nls. induction ls as [|x ls IH]; [reflexivity|].
    cbn [forallb] in *. apply andb_true_iff in H as [-> H].
    apply andb_true_iff in Nls as [-> N]. cbn [andb]. auto.
Qed.

Lemma regex_fixed s :
  forallb (fun l => negb (startswith SEPT l)) (split s) = true ->
  Regex.resolve s = s.
Proof.
  intro H. apply sub_no_block, block_here_sep, no_sep_lines, H.
Qed.

Lemma tails_snoc ls x t : tails (ls ++ [x]) ++ t = tails ls ++ nl :: x ++ t.
Proof.
  rewrite tails_app. cbn [tails]. now rewrite app_nil_r, <- app_assoc.
Qed.

Lemma nl_join_snoc ls x t : nl :: join (ls ++ [x]) ++ t = tails (ls ++ [x]) ++ t.
Proof. destruct ls; reflexivity. Qed.

(** Blocks before a start marker that has no separator-then-end after it
    are resolved; the start marker and all that follows it stay. *)
Lemma sub_before_dangling d rest :
  forallb well_formed d = true -> forallb both_segments d = true ->
  sep_then_end rest = false ->
  sub (join (flat_map chunk_lines d ++ [START]) ++ nl :: rest)
  = join (flat_map chunk_resolved d ++ [START]) ++ nl :: rest.
Proof.
  intros Hw Hb Hr.
  assert (H : sub (tails (flat_map chunk_lines d) ++ nl :: START ++ nl :: rest)
              = tails (flat_map chunk_resolved d) ++ nl :: START ++ nl :: rest).
  { rewrite sub_chunks by (auto; reflexivity).
    now rewrite sub_nl, sub_dangling. }
  rewrite <- !tails_snoc, <- !nl_join_snoc, sub_nl in H.
  now injection H.
Qed.

Lemma end_here_line e : accepted_end e = false -> end_here (nl :: e) = false.
Proof.
  unfold end_here, accepted_end, ENDP. cbn [startswith].
  rewrite Ascii.eqb_refl. cbn [andb].
  with_strategy transparent [ENDT]
    (change (List.length (nl :: ENDT ++ lit " ")) with 9).
  change (skipn 9 (nl :: e)) with (skipn 8 e).
  destruct (startswith (ENDT ++ lit " ") e); [|reflexivity].
  now destruct (skipn 8 e).
Qed.

(** The text after the start marker of a block that the pattern does not
    accept holds no separator followed by an accepted end marker. *)
Lemma unaccepted_block lo inc e :
  forallb content_line lo = true -> forallb content_line inc = true ->
  no_nl e = true -> startswith ENDT e = true ->
  nonempty lo && nonempty inc && accepted_end e = false ->
  sep_then_end (join (lo ++ SEPT :: inc ++ [e])) = false.
Proof.
  intros Hlo Hinc He HeE Hacc.
  destruct no_nl_marker_texts as (_ & HP & _).
  assert (Hes : startswith SEPT e = false).
  { destruct e as [|c e]; [reflexivity|]. revert HeE.
    with_strategy transparent [SEPT ENDT]
      (cbn [startswith SEPT ENDT lit list_ascii_of_string]).
    intro H. apply andb_true_iff in H as [H _].
    apply Ascii.eqb_eq in H. subst c. reflexivity. }
  assert (Hrest : forallb (fun l => no_nl l && negb (startswith SEPT l))
                    (inc ++ [e]) = true).
  { rewrite forallb_app, content_lines_not_sep by assumption.
    cbn [forallb]. now rewrite He, Hes. }
  assert (W : forall x, startswith SEP x = false -> sep_here x = false).
  { intros x Hx. unfold sep_here. now rewrite Hx. }
  assert (We : forall x, startswith ENDP x = false -> end_here x = false).
  { intros x Hx. unfold end_here. now rewrite Hx. }
  assert (Nlo : forallb no_nl lo = true).
  { revert Hlo. apply forallb_weaken. intros x Hx.
    now apply content_line_inv in Hx. }
  assert (Ninc : forallb no_nl inc = true).
  { revert Hinc. apply forallb_weaken. intros x Hx.
    now apply content_line_inv in Hx. }
  unfold sep_then_end.
  destruct lo as [|l0 lo].
  - (* no local line: the separator line is not preceded by a newline *)
    cbn [app join]. rewrite <- (app_nil_r (tails (inc ++ [e]))).
    rewrite anywhere_lines; auto using sep_here_nl.
    + rewrite forallb_app, Ninc. cbn [forallb]. now rewrite He.
    + apply line_starts_fail_weaken with (Q := startswith SEP); [exact W|].
      apply lines_fail_sep; [exact I|exact Hrest].
  - cbn [forallb] in Hlo, Nlo.
    apply andb_true_iff in Hlo as [_ Hlo]. apply andb_true_iff in Nlo as [N0 Nlo].
    cbn [nonempty andb] in Hacc.
    cbn [app join]. rewrite <- (app_nil_r (tails _)).
    rewrite anywhere_lines; auto using sep_here_nl.
    + rewrite forallb_app, Nlo. cbn [forallb]. rewrite HP.
      rewrite forallb_app, Ninc. cbn [forallb]. now rewrite He.
    + rewrite line_starts_fail_app. apply andb_true_iff. split.
      * apply line_starts_fail_weaken with (Q := startswith SEP); [exact W|].
        apply lines_fail_sep; [reflexivity|].
        now apply content_lines_not_sep.
      * cbn [line_starts_fail]. apply andb_true_iff. split.
        2:{ apply line_starts_fail_weaken with (Q := startswith SEP);
              [exact W|].
            apply lines_fail_sep; [exact I|exact Hrest]. }
        apply negb_true_iff. unfold sep_here. apply andb_false_iff. right.
        (* after the separator: no accepted end marker *)
        destruct inc as [|i0 inc].
        -- cbn [app tails]. rewrite !app_nil_r.
           change (nl :: SEPT ++ nl :: e) with (nl :: SEPT ++ [nl] ++ e).
           rewrite app_assoc. change (nl :: (SEPT ++ [nl]) ++ e) with (SEP ++ e).
           rewrite skipn_exact. rewrite <- (app_nil_r e).
           change (e ++ []) with (e ++ tails [] ++ []).
           rewrite anywhere_lines; auto using end_here_nl.
        -- cbn [app tails]. rewrite !app_nil_r.
           change (nl :: SEPT ++ nl :: i0 ++ tails (inc ++ [e]))
             with (nl :: SEPT ++ [nl] ++ i0 ++ tails (inc ++ [e])).
           rewrite app_assoc.
           change (nl :: (SEPT ++ [nl]) ++ i0 ++ tails (inc ++ [e]))
             with (SEP ++ i0 ++ tails (inc ++ [e])).
           rewrite skipn_exact. rewrite <- (app_nil_r (tails _)).
           cbn [forallb] in Hinc, Ninc.
           apply andb_true_iff in Hinc as [_ Hinc].
           apply andb_true_iff in Ninc as [Ni0 Ninc].
           rewrite anywhere_lines; auto using end_here_nl.
           ++ rewrite forallb_app, Ninc. cbn [forallb]. now rewrite He.
           ++ rewrite line_starts_fail_app. apply andb_true_iff. split.
              ** apply line_starts_fail_weaken with (Q := startswith ENDP);
                   [exact We|].
                 apply lines_fail_end; [reflexivity|].
                 now apply content_lines_not_end.
              ** cbn [line_starts_fail tails]. rewrite !app_nil_r.
                 rewrite andb_true_r. apply negb_true_iff.
                 cbn [nonempty andb] in Hacc. now apply end_here_line.
Qed.

End RegexResults.


(* ------------------------------------------------------------------ *)
(** ** Further properties of the line filter *)

Section FilterMore.

Lemma final_chunks d :
  forallb well_formed d = true ->
  final Scan.init (flat_map chunk_lines d) = Scan.init.
Proof.
  induction d as [|c d IH]; intro H; [reflexivity|].
  cbn [forallb flat_map] in *. apply andb_true_iff in H as [Hc Hd].
  rewrite final_app. destruct (emit_chunk c Hc) as [_ ->]. auto.
Qed.

Lemma subseq_nil_l b : subseq [] b = true.
Proof. destruct b; reflexivity. Qed.

Lemma subseq_drop x a b : subseq (x :: a) b = true -> subseq a b = true.
Proof.
  revert x a. induction b as [|y b IH]; intros x a; [discriminate|].
  cbn [subseq]. destruct (list_eq_dec ascii_dec x y) as [->|N]; intro H.
  - destruct a as [|x' a]; [reflexivity|]. cbn [subseq].
    destruct (list_eq_dec ascii_dec x' y); eauto.
  - destruct a as [|x' a]; [reflexivity|]. cbn [subseq].
    destruct (list_eq_dec ascii_dec x' y); eauto.
Qed.

Lemma subseq_skip a y b : subseq a b = true -> subseq a (y :: b) = true.
Proof.
  destruct a as [|x a]; [reflexivity|]. cbn [subseq]. intro H.
  destruct (list_eq_dec ascii_dec x y); [|exact H].
  now apply subseq_drop in H.
Qed.

Lemma subseq_keep x a b : subseq a b = true -> subseq (x :: a) (x :: b) = true.
Proof.
  intro H. cbn [subseq]. now destruct (list_eq_dec ascii_dec x x).
Qed.

Lemma emit_subseq ls : forall st, subseq (emit st ls) ls = true.
Proof.
  induction ls as [|l ls IH]; intro st; [reflexivity|].
  cbn [emit]. destruct (step_out st l) as [-> | [-> _]]; cbn [app].
  - apply subseq_skip, IH.
  - apply subseq_keep, IH.
Qed.

(** While [in_remote] is set and no end-marker line is read, the flag
    stays set and only lines that open with the separator text get
    through. *)
Lemma emit_in_remote ls : forall st,
  Scan.in_remote st = true ->
  forallb (fun l => negb (startswith ENDT l)) ls = true ->
  forallb (startswith SEPT) (emit st ls) = true
  /\ Scan.in_remote (final st ls) = true.
Proof.
  induction ls as [|l ls IH]; intros st Hst H; [auto|].
  cbn [forallb] in H. apply andb_true_iff in H as [Hl Hls].
  apply negb_true_iff in Hl.
  assert (S : Scan.in_remote (fst (step st l)) = true /\
              forallb (startswith SEPT) (snd (step st l)) = true).
  { unfold step, Scan.body. rewrite Hl.
    destruct (startswith START l); [auto|].
    destruct (startswith SEPT l) eqn:E.
    - destruct (Scan.in_head st); cbn; rewrite ?E; auto.
    - rewrite Hst. auto. }
  destruct S as [S1 S2]. destruct (IH _ S1 Hls) as [I1 I2].
  unfold final in *. cbn [emit fold_left]. split; [|exact I2].
  rewrite forallb_app. apply andb_true_iff. split; assumption.
Qed.

End FilterMore.

(* ------------------------------------------------------------------ *)
(** ** What a match of the pattern is *)

Section MatchShape.

Import Regex.

(** A success of the lazy repeat: the continuation succeeds after some
    prefix and fails after every shorter one. *)
Lemma lazy_loop_first K s : forall m r,
  lazy_loop any K m s = Some r ->
  exists a b, s = a ++ b /\ K (consume m a) b = Some r /\
    forall a1 a2, a = a1 ++ a2 -> a2 <> [] ->
                  K (consume m a1) (a2 ++ b) = None.
Proof.
  induction s as [|c s IH]; intros m r; rewrite lazy_loop_unfold.
  - destruct (K m []) as [r'|] eqn:E; [|discriminate]. intro H.
    exists [], []. rewrite consume_nil.
    repeat split; [congruence|]. intros a1 a2 H0.
    symmetry in H0. apply app_eq_nil in H0 as [_ ->]. congruence.
  - destruct (K m (c :: s)) as [r'|] eqn:E.
    + intro H. exists [], (c :: s). rewrite consume_nil.
      repeat split; [congruence|]. intros a1 a2 H0.
      symmetry in H0. apply app_eq_nil in H0 as [_ ->]. congruence.
    + intro H. apply IH in H as (a & b & -> & Hk & Hmin).
      exists (c :: a), b. repeat split.
      * change (c :: a) with ([c] ++ a). now rewrite consume_app.
      * intros a1 a2 Ha Hne. destruct a1 as [|c1 a1].
        -- cbn [app] in Ha. subst a2. now rewrite consume_nil.
        -- cbn [app] in Ha. injection Ha as <- Ha.
           change (c :: a1) with ([c] ++ a1). rewrite consume_app.
           now apply Hmin.
Qed.

Lemma greedy_loop_none m t :
  greedy_loop not_nl (exec []) m t = None -> line_end t.
Proof.
  destruct t as [|c t]; [easy|]. rewrite greedy_loop_unfold.
  unfold not_nl at 1. destruct (Ascii.eqb_spec c nl) as [->|N]; [easy|].
  cbn [negb]. now destruct (greedy_loop not_nl (exec []) (consume m [c]) t).
Qed.

(** The greedy repeat at the end of the pattern reads a non-empty run of
    characters that are not newlines, up to the end of the line. *)
Lemma greedy_loop_run s : forall m g r,
  greedy_loop not_nl (exec []) m s = Some (g, r) ->
  exists id, s = id ++ r /\ nonempty id = true /\ no_nl id = true /\
             line_end r /\ g = grp (consume m id).
Proof.
  induction s as [|c s IH]; intros m g r; rewrite greedy_loop_unfold;
    [discriminate|].
  unfold not_nl at 1. destruct (Ascii.eqb c nl) eqn:Ec; [discriminate|].
  cbn [negb].
  destruct (greedy_loop not_nl (exec []) (consume m [c]) s) as [[g' r']|] eqn:E.
  - intro H. injection H as <- <-.
    apply IH in E as (id & -> & _ & Hid & Hr & ->).
    exists (c :: id). repeat split; auto.
    + unfold no_nl in *. cbn [forallb]. now rewrite Ec, Hid.
    + change (c :: id) with ([c] ++ id). now rewrite consume_app.
  - cbn [exec]. intro H. injection H as <- <-.
    exists [c]. repeat split; auto.
    + unfold no_nl. cbn [forallb]. now rewrite Ec.
    + now apply greedy_loop_none in E.
Qed.

(** Every match is a complete triple. *)
Lemma match_at_shape s g r :
  match_at s = Some (g, r) ->
  exists x id,
    s = START_NL ++ g ++ SEP ++ x ++ ENDP ++ id ++ r /\
    nonempty id = true /\ no_nl id = true /\ line_end r /\
    sep_here (SEP ++ x ++ ENDP ++ id ++ r) = true /\
    (forall a1 a2, g = a1 ++ a2 -> a2 <> [] ->
       exec after_open {| opened := true; grp := a1 |}
         (a2 ++ SEP ++ x ++ ENDP ++ id ++ r) = None).
Proof.
  rewrite match_at_unfold.
  destruct (startswith START_NL s) eqn:E1; [|discriminate].
  apply startswith_split in E1.
  remember (skipn (List.length START_NL) s) as s1 eqn:R. clear R.
  intro H. apply lazy_loop_first in H as (a & b & E2 & H & Hmin).
  rewrite consume_open in H. cbn [app] in H.
  assert (Hs : sep_here b = true).
  { destruct (sep_here b) eqn:Sb; [reflexivity|].
    now rewrite (after_open_fails _ _ Sb) in H. }
  rewrite after_open_unfold in H.
  destruct (startswith SEP b) eqn:E3; [|discriminate].
  apply startswith_split in E3.
  remember (skipn (List.length SEP) b) as b1 eqn:R. clear R.
  cbn [grp] in H.
  apply lazy_loop_first in H as (x & b2 & E4 & H & _).
  rewrite consume_closed, after_sep_unfold in H.
  destruct (startswith ENDP b2) eqn:E5; [|discriminate].
  apply startswith_split in E5.
  remember (skipn (List.length ENDP) b2) as b3 eqn:R. clear R.
  rewrite consume_closed in H.
  apply greedy_loop_run in H as (id & E6 & Hne & Hid & Hr & Hg).
  rewrite consume_closed in Hg. cbn [grp] in Hg. subst.
  exists x, id. repeat split; auto.
Qed.

Lemma greedy_loop_some m c s :
  not_nl c = true -> is_some (greedy_loop not_nl (exec []) m (c :: s)) = true.
Proof.
  intro H. rewrite greedy_loop_unfold, H.
  now destruct (greedy_loop not_nl (exec []) (consume m [c]) s).
Qed.

Lemma lazy_loop_some K P s : forall m,
  (forall m y, P y = true -> is_some (K m y) = true) ->
  anywhere P s = true -> is_some (lazy_loop any K m s) = true.
Proof.
  intros m HK. revert m. induction s as [|c s IH]; intros m H;
    rewrite lazy_loop_unfold; cbn [anywhere] in H.
  - rewrite orb_false_r in H. specialize (HK m [] H).
    now destruct (K m []).
  - destruct (K m (c :: s)) eqn:E; [reflexivity|].
    apply orb_true_iff in H as [H|H]; [|auto].
    specialize (HK m _ H). rewrite E in HK. discriminate.
Qed.

Lemma after_sep_some m y :
  end_here y = true -> is_some (exec after_sep m y) = true.
Proof.
  unfold end_here. rewrite after_sep_unfold. intro H.
  apply andb_true_iff in H as [-> H].
  destruct (skipn (List.length ENDP) y) as [|c t]; [discriminate|].
  now apply greedy_loop_some.
Qed.

Lemma after_open_some m y :
  sep_here y = true -> is_some (exec after_open m y) = true.
Proof.
  unfold sep_here. rewrite after_open_unfold. intro H.
  apply andb_true_iff in H as [-> H].
  apply lazy_loop_some with (P := end_here); auto using after_sep_some.
Qed.

(** The pattern matches at the head of [s] exactly when a complete triple
    begins there. *)
Lemma match_at_some s : is_some (match_at s) = block_here s.
Proof.
  destruct (block_here s) eqn:B.
  - unfold block_here in B. apply andb_true_iff in B as [B1 B2].
    rewrite match_at_unfold, B1.
    apply lazy_loop_some with (P := sep_here); auto using after_open_some.
  - now rewrite match_at_none.
Qed.

Lemma after_open_none m y :
  exec after_open m y = None -> sep_here y = false.
Proof.
  intro H. destruct (sep_here y) eqn:E; [|reflexivity].
  apply (after_open_some m) in E. rewrite H in E. discriminate.
Qed.

Lemma start_nl_length : List.length START_NL = 13.
Proof. vm_compute. reflexivity. Qed.

Lemma sep_length : List.length SEP = 9.
Proof. vm_compute. reflexivity. Qed.

(** The substitution never makes a text longer. *)
Lemma sub_fuel_length n : forall s,
  List.length (sub_fuel n s) <= List.length s.
Proof.
  induction n as [|n IH]; intro s; cbn [sub_fuel]; [lia|].
  destruct s as [|c s]; [cbn; lia|].
  destruct (match_at (c :: s)) as [[g r]|] eqn:E.
  - apply match_at_shape in E as (x & id & E & _).
    rewrite E, !length_app. specialize (IH r). lia.
  - specialize (IH s). cbn [List.length]. lia.
Qed.

Lemma sub_length s : List.length (sub s) <= List.length s.
Proof. apply sub_fuel_length. Qed.

Lemma sub_shorter s :
  has_block s = true -> List.length (sub s) < List.length s.
Proof.
  unfold has_block. induction s as [|c s IH]; cbn [anywhere]; intro H.
  - rewrite orb_false_r in H. unfold block_here in H.
    apply andb_true_iff in H as [H _]. discriminate.
  - rewrite sub_cons. destruct (match_at (c :: s)) as [[g r]|] eqn:E.
    + apply match_at_shape in E as (x & id & E & _).
      rewrite E, !length_app, start_nl_length. pose proof (sub_length r). lia.
    + pose proof (match_at_some (c :: s)) as M. rewrite E in M.
      cbn [is_some] in M. rewrite <- M in H. cbn [orb] in H.
      specialize (IH H). cbn [List.length]. lia.
Qed.

End MatchShape.


(* ------------------------------------------------------------------ *)
(** ** A marker sequence in its context *)

Section Context.

Import Regex.

(** What a match leaves unread is a suffix of what it was given. *)
Lemma match_at_suffix s g r :
  match_at s = Some (g, r) ->
  exists x, s = x ++ r /\ List.length x = List.length s - List.length r.
Proof.
  intro H. apply match_at_shape in H as (y & id & E & _).
  exists (START_NL ++ g ++ SEP ++ y ++ ENDP ++ id). split.
  - rewrite E. now rewrite <- !app_assoc.
  - rewrite E, !length_app. lia.
Qed.

(** When the scan comes to stand at position [k], the substitution is
    what was written up to there followed by the substitution of the
    rest. *)
Lemma sub_upto_spec n : forall k s out,
  sub_upto n k s = Some out -> sub s = out ++ sub (skipn k s).
Proof.
  induction n as [|n IH]; intros k s out; destruct k as [|k];
    cbn [sub_upto]; try (intro H; injection H as <-; reflexivity);
    [discriminate|].
  destruct s as [|c s]; [discriminate|].
  rewrite sub_cons.
  destruct (match_at (c :: s)) as [[g r]|] eqn:M.
  - apply match_at_suffix in M as (x & E & Lx). rewrite <- Lx.
    destruct (List.length x <=? S k) eqn:Le; [|discriminate].
    apply Nat.leb_le in Le.
    destruct (sub_upto n (S k - List.length x) r) as [o|] eqn:U;
      [|discriminate].
    cbn [option_map]. intro H. injection H as <-.
    apply IH in U. rewrite U, <- app_assoc. f_equal. f_equal. f_equal.
    rewrite E, skipn_app.
    rewrite (skipn_all2 x) by lia. reflexivity.
  - destruct (sub_upto n k s) as [o|] eqn:U; [|discriminate].
    cbn [option_map]. intro H. injection H as <-.
    apply IH in U. rewrite U. reflexivity.
Qed.

Lemma written_before_spec pre t out :
  written_before pre t = Some out -> sub (pre ++ t) = out ++ sub t.
Proof.
  unfold written_before. intro H. apply sub_upto_spec in H.
  now rewrite skipn_app, skipn_all, Nat.sub_diag in H.
Qed.

(** A start marker that the scan comes to and that has no separator
    followed by an end marker after it stays, with all that follows it. *)
Lemma sub_dangling_after pre rest out :
  written_before pre (START ++ nl :: rest) = Some out ->
  sep_then_end rest = false ->
  sub (pre ++ START ++ nl :: rest) = out ++ START ++ nl :: rest.
Proof.
  intros H Hr. apply written_before_spec in H. now rewrite H, sub_dangling.
Qed.

Lemma no_end_no_sep t : anywhere end_here t = false -> sep_then_end t = false.
Proof.
  unfold sep_then_end. induction t as [|c t IH]; intro H.
  - reflexivity.
  - cbn [anywhere]. apply orb_false_iff. split.
    + unfold sep_here. rewrite (anywhere_skipn _ _ _ H). apply andb_false_r.
    + apply IH. cbn [anywhere] in H. now apply orb_false_iff in H.
Qed.

Lemma end_texts_no_nl : no_nl (ENDT ++ lit " ") = true.
Proof. vm_compute. reflexivity. Qed.

Lemma end_text_length : List.length (ENDT ++ lit " ") = 8.
Proof. vm_compute. reflexivity. Qed.

Lemma endp_length : List.length ENDP = 9.
Proof. vm_compute. reflexivity. Qed.

(** The line of an end marker that the pattern does not accept lets no
    end marker begin at its start, whatever line end follows. *)
Lemma end_here_line_context e t :
  accepted_end e = false -> line_end t -> end_here (nl :: e ++ t) = false.
Proof.
  intros A Ht. unfold end_here.
  destruct (startswith ENDP (nl :: e ++ t)) eqn:E; [|reflexivity].
  cbn [andb]. rewrite endp_length.
  change (skipn 9 (nl :: e ++ t)) with (skipn 8 (e ++ t)).
  unfold ENDP in E. cbn [startswith] in E.
  apply andb_true_iff in E as [_ E].
  apply startswith_within in E; auto using end_texts_no_nl.
  unfold accepted_end in A. rewrite E in A. cbn [andb] in A.
  apply startswith_split in E. rewrite end_text_length in E.
  destruct (skipn 8 e) as [|x y] eqn:S8; [|discriminate].
  rewrite app_nil_r in E. rewrite E at 1.
  rewrite <- end_text_length, skipn_exact.
  destruct t as [|c t]; [reflexivity|]. cbn in Ht. now subst c.
Qed.

(** The text after the start marker of a block that the pattern does not
    accept, followed by a text in which no accepted end marker begins,
    holds no separator followed by an accepted end marker. *)
Lemma unaccepted_block_context lo inc e t :
  forallb content_line lo = true -> forallb content_line inc = true ->
  no_nl e = true -> startswith ENDT e = true ->
  nonempty lo && nonempty inc && accepted_end e = false ->
  line_end t -> anywhere end_here t = false ->
  sep_then_end (join (lo ++ SEPT :: inc ++ [e]) ++ t) = false.
Proof.
  intros Hlo Hinc He HeE Hacc Ht Hend.
  pose proof (no_end_no_sep t Hend) as Hsep. unfold sep_then_end in Hsep.
  destruct no_nl_marker_texts as (_ & HP & _).
  assert (Hes : startswith SEPT e = false).
  { destruct e as [|c e]; [reflexivity|]. revert HeE.
    with_strategy transparent [SEPT ENDT]
      (cbn [startswith SEPT ENDT lit list_ascii_of_string]).
    intro H. apply andb_true_iff in H as [H _].
    apply Ascii.eqb_eq in H. subst c. reflexivity. }
  assert (Hrest : forallb (fun l => no_nl l && negb (startswith SEPT l))
                    (inc ++ [e]) = true).
  { rewrite forallb_app, content_lines_not_sep by assumption.
    cbn [forallb]. now rewrite He, Hes. }
  assert (W : forall x, startswith SEP x = false -> sep_here x = false).
  { intros x Hx. unfold sep_here. now rewrite Hx. }
  assert (We : forall x, startswith ENDP x = false -> end_here x = false).
  { intros x Hx. unfold end_here. now rewrite Hx. }
  assert (Nlo : forallb no_nl lo = true).
  { revert Hlo. apply forallb_weaken. intros x Hx.
    now apply content_line_inv in Hx. }
  assert (Ninc : forallb no_nl inc = true).
  { revert Hinc. apply forallb_weaken. intros x Hx.
    now apply content_line_inv in Hx. }
  assert (Nrest : forallb no_nl (inc ++ [e]) = true).
  { rewrite forallb_app, Ninc. cbn [forallb]. now rewrite He. }
  assert (Frest : line_starts_fail sep_here (inc ++ [e]) t = true).
  { apply line_starts_fail_weaken with (Q := startswith SEP); [exact W|].
    now apply lines_fail_sep. }
  unfold sep_then_end.
  destruct lo as [|l0 lo].
  - cbn [app join]. rewrite <- app_assoc.
    rewrite anywhere_lines; auto using sep_here_nl.
  - cbn [forallb] in Hlo, Nlo.
    apply andb_true_iff in Hlo as [_ Hlo]. apply andb_true_iff in Nlo as [N0 Nlo].
    cbn [nonempty andb] in Hacc.
    cbn [app join]. rewrite <- app_assoc.
    rewrite anywhere_lines; auto using sep_here_nl.
    + rewrite forallb_app, Nlo. cbn [forallb]. now rewrite HP, Nrest.
    + rewrite line_starts_fail_app. apply andb_true_iff. split.
      * apply line_starts_fail_weaken with (Q := startswith SEP); [exact W|].
        apply lines_fail_sep; [now apply line_end_tails|].
        now apply content_lines_not_sep.
      * cbn [line_starts_fail]. apply andb_true_iff. split; [|exact Frest].
        apply negb_true_iff. unfold sep_here. apply andb_false_iff. right.
        assert (T : nl :: SEPT ++ tails (inc ++ [e]) ++ t
                    = SEP ++ join (inc ++ [e]) ++ t).
        { unfold SEP. destruct inc; cbn [app tails join];
            now rewrite <- !app_assoc. }
        rewrite T, skipn_exact. clear T.
        destruct inc as [|i0 inc].
        -- cbn [app join tails]. rewrite app_nil_r.
           rewrite anywhere_line; auto using end_here_nl.
        -- cbn [app join]. rewrite <- app_assoc.
           cbn [forallb] in Hinc, Ninc.
           apply andb_true_iff in Hinc as [_ Hinc].
           apply andb_true_iff in Ninc as [Ni0 Ninc].
           rewrite anywhere_lines; auto using end_here_nl.
           ++ rewrite forallb_app, Ninc. cbn [forallb]. now rewrite He.
           ++ rewrite line_starts_fail_app. apply andb_true_iff. split.
              ** apply line_starts_fail_weaken with (Q := startswith ENDP);
                   [exact We|].
                 apply lines_fail_end; [now apply line_end_tails|].
                 now apply content_lines_not_end.
              ** cbn [line_starts_fail tails app].
                 rewrite andb_true_r. apply negb_true_iff.
                 cbn [nonempty andb] in Hacc.
                 now apply end_here_line_context.
Qed.

(** The text of a block, as the start marker, a newline and the rest. *)
Lemma block_lines_text lo inc e :
  join (START :: lo ++ SEPT :: inc ++ [e])
  = START ++ nl :: join (lo ++ SEPT :: inc ++ [e]).
Proof. cbn [join]. now destruct lo. Qed.

End Context.

(* ------------------------------------------------------------------ *)
(** ** The file loops *)

Section Newlines.

Lemma newlines_in_no_cr s : no_cr s = true -> newlines_in false s = s.
Proof.
  unfold no_cr. induction s as [|c s IH]; [reflexivity|].
  cbn [forallb newlines_in]. intro H. apply andb_true_iff in H as [Hc Hs].
  apply negb_true_iff in Hc. rewrite Hc, andb_false_r. now rewrite IH.
Qed.

Lemma no_cr_newlines_in s : forall b, no_cr (newlines_in b s) = true.
Proof.
  unfold no_cr. induction s as [|c s IH]; intro b; [reflexivity|].
  cbn [newlines_in]. destruct (Ascii.eqb c cr) eqn:E.
  - cbn [forallb]. now rewrite IH.
  - destruct (Ascii.eqb c nl && b); [apply IH|].
    cbn [forallb]. now rewrite E, IH.
Qed.

(** What is written in text mode is read back as it was, when it holds no
    carriage return. *)
Lemma newlines_out_in pf s :
  no_cr s = true -> universal_newlines (newlines_out pf s) = s.
Proof.
  unfold universal_newlines, newlines_out, no_cr.
  induction s as [|c s IH]; [reflexivity|].
  cbn [forallb flat_map]. intro H.
  apply andb_true_iff in H as [Hc Hs]. apply negb_true_iff in Hc.
  specialize (IH Hs).
  destruct (Ascii.eqb_spec c nl) as [->|N].
  - destruct pf; cbn [linesep app newlines_in] in *.
    + rewrite Hc. rewrite andb_false_r. now rewrite IH.
    + rewrite !Ascii.eqb_refl, Hc. cbn [andb]. now rewrite IH.
  - cbn [app newlines_in]. rewrite Hc, andb_false_r. now rewrite IH.
Qed.

Lemma split_chars (Q : ascii -> bool) s :
  forallb Q s = true -> forallb (forallb Q) (split s) = true.
Proof.
  induction s as [|c s IH]; [reflexivity|]. cbn [forallb split]. intro H.
  apply andb_true_iff in H as [Hc Hs]. specialize (IH Hs).
  destruct (Ascii.eqb c nl); [exact IH|].
  destruct (split s) as [|l ls]; cbn [forallb] in *.
  - now rewrite Hc.
  - apply andb_true_iff in IH as [-> ->]. now rewrite Hc.
Qed.

Lemma tails_chars (Q : ascii -> bool) ls :
  Q nl = true -> forallb (forallb Q) ls = true -> forallb Q (tails ls) = true.
Proof.
  intro Hn. induction ls as [|l ls IH]; [reflexivity|].
  cbn [forallb tails]. intro H. apply andb_true_iff in H as [Hl Hls].
  now rewrite Hn, forallb_app, Hl, IH.
Qed.

Lemma join_chars (Q : ascii -> bool) ls :
  Q nl = true -> forallb (forallb Q) ls = true -> forallb Q (join ls) = true.
Proof.
  intros Hn H. destruct ls as [|l ls]; [reflexivity|].
  cbn [forallb join] in *. apply andb_true_iff in H as [Hl Hls].
  now rewrite forallb_app, Hl, tails_chars.
Qed.

(** The line filter brings in no carriage return. *)
Lemma no_cr_scan x : no_cr x = true -> no_cr (Scan.resolve x) = true.
Proof.
  unfold no_cr. intro H. unfold Scan.resolve. rewrite filter_lines_emit.
  apply join_chars; [reflexivity|].
  pose proof (emit_kept _ (split x) Scan.init (split_chars _ x H)) as K.
  revert K. apply forallb_weaken. intros l Hl. now apply andb_true_iff in Hl.
Qed.

End Newlines.

Section FileLoop.

Variable pf : platform.
Variable transform : text -> text.

Lemma process_file_spec fs p :
  process_file pf transform fs p =
  match fs p with
  | Some f => if usable f then Some (write fs p (rewritten pf transform f))
              else None
  | None => None
  end.
Proof.
  unfold process_file, usable, rewritten.
  destruct (fs p) as [[[raw|] [] []]|]; reflexivity.
Qed.

Lemma write_same fs p f : write fs p f p = Some f.
Proof. unfold write. now destruct (list_eq_dec ascii_dec p p). Qed.

Lemma write_other fs p f q : q <> p -> write fs p f q = fs q.
Proof. unfold write. now destruct (list_eq_dec ascii_dec q p). Qed.

Lemma forallb_in_ext (f g : path -> bool) l :
  (forall x, In x l -> f x = g x) -> forallb f l = forallb g l.
Proof.
  induction l as [|x l IH]; intro H; [reflexivity|].
  cbn [forallb]. rewrite H by now left. rewrite IH; [reflexivity|].
  intros y Hy. apply H. now right.
Qed.

Lemma usable_at_write fs p f ps :
  ~ In p ps ->
  forallb (usable_at (write fs p f)) ps = forallb (usable_at fs) ps.
Proof.
  intro N. apply forallb_in_ext. intros x Hx. unfold usable_at.
  rewrite write_other; [reflexivity|]. intros ->. contradiction.
Qed.

(** Over a list without repetition the loop ends normally exactly when
    every listed file is usable at the start. *)
Lemma process_files_nodup_some files : forall fs,
  NoDup files ->
  is_some (process_files pf transform fs files) = forallb (usable_at fs) files.
Proof.
  induction files as [|p ps IH]; intros fs N; [reflexivity|].
  inversion N as [|? ? Np Nps]; subst.
  cbn [process_files forallb]. rewrite process_file_spec. unfold usable_at at 1.
  destruct (fs p) as [f|]; [|reflexivity].
  destruct (usable f); [|reflexivity].
  rewrite IH by assumption. now rewrite usable_at_write.
Qed.

(** ... and then leaves every listed file rewritten once and every other
    file as it was. *)
Lemma process_files_nodup_lookup files : forall fs q,
  NoDup files -> forallb (usable_at fs) files = true ->
  content_after (process_files pf transform fs files) q
  = Some (if in_dec path_eq_dec q files
          then option_map (rewritten pf transform) (fs q)
          else fs q).
Proof.
  induction files as [|p ps IH]; intros fs q N H; [reflexivity|].
  inversion N as [|? ? Np Nps]; subst.
  cbn [forallb] in H. apply andb_true_iff in H as [Hp Hps].
  cbn [process_files]. rewrite process_file_spec. unfold usable_at in Hp.
  destruct (fs p) as [f|] eqn:E; [|discriminate]. rewrite Hp.
  rewrite IH by (auto; now rewrite usable_at_write).
  f_equal.
  destruct (in_dec path_eq_dec q ps) as [I|I];
    destruct (in_dec path_eq_dec q (p :: ps)) as [J|J].
  - rewrite write_other; [reflexivity|]. intros ->. contradiction.
  - exfalso. apply J. now right.
  - destruct J as [<-|J]; [|contradiction].
    now rewrite write_same, E.
  - rewrite write_other; [reflexivity|]. intros ->. apply J. now left.
Qed.

Lemma run_files_abort done : forall fs p rest,
  NoDup done -> forallb (usable_at fs) done = true -> usable_at fs p = false ->
  snd (run_files pf transform fs (done ++ p :: rest)) = Some p /\
  forall q, fst (run_files pf transform fs (done ++ p :: rest)) q
            = if in_dec path_eq_dec q done
              then option_map (rewritten pf transform) (fs q)
              else fs q.
Proof.
  induction done as [|d ds IH]; intros fs p rest N H Hp.
  - cbn [app run_files]. rewrite process_file_spec. unfold usable_at in Hp.
    destruct (fs p) as [f|]; [rewrite Hp|]; auto.
  - inversion N as [|? ? Nd Nds]; subst.
    cbn [forallb] in H. apply andb_true_iff in H as [Hd Hds].
    cbn [app run_files]. rewrite process_file_spec.
    assert (Hpd : p <> d).
    { intros ->. rewrite Hp in Hd. discriminate. }
    unfold usable_at in Hd. destruct (fs d) as [f|] eqn:E; [|discriminate].
    rewrite Hd.
    destruct (IH (write fs d (rewritten pf transform f)) p rest) as [I1 I2].
    + assumption.
    + now rewrite usable_at_write.
    + unfold usable_at. now rewrite write_other.
    + split; [exact I1|]. intro q. rewrite I2.
      destruct (in_dec path_eq_dec q ds) as [I|I];
        destruct (in_dec path_eq_dec q (d :: ds)) as [J|J].
      * rewrite write_other; [reflexivity|]. intros ->. contradiction.
      * exfalso. apply J. now right.
      * destruct J as [<-|J]; [|contradiction]. now rewrite write_same, E.
      * rewrite write_other; [reflexivity|]. intros ->. apply J. now left.
Qed.

(** From here on rewriting a usable file a second time changes nothing. *)
Hypothesis settles : forall f,
  usable f = true ->
  rewritten pf transform (rewritten pf transform f) = rewritten pf transform f.

Lemma rewritten_settled f : usable f = true -> settled pf transform (rewritten pf transform f).
Proof.
  intro H. split; [|now apply settles].
  unfold usable, rewritten in *. cbn [decoded readable writable].
  destruct (readable f), (decoded f), (writable f); try discriminate.
  reflexivity.
Qed.

Lemma settled_stays files : forall fs fs1 x g,
  settled pf transform g -> fs x = Some g ->
  process_files pf transform fs files = Some fs1 -> fs1 x = Some g.
Proof.
  induction files as [|p ps IH]; intros fs fs1 x g Hg Hx.
  - cbn. intro H. now injection H as <-.
  - cbn [process_files]. rewrite process_file_spec.
    destruct (fs p) as [f|] eqn:E; [|discriminate].
    destruct (usable f) eqn:U; [|discriminate].
    apply IH; [assumption|].
    destruct (path_eq_dec x p) as [->|N].
    + rewrite write_same. rewrite Hx in E. injection E as <-.
      destruct Hg as [_ ->]. reflexivity.
    + now rewrite write_other.
Qed.

Lemma all_settled files : forall fs fs1,
  process_files pf transform fs files = Some fs1 ->
  forall p, In p files -> exists g, fs1 p = Some g /\ settled pf transform g.
Proof.
  induction files as [|p0 ps IH]; intros fs fs1 H p Hp; [contradiction|].
  cbn [process_files] in H. rewrite process_file_spec in H.
  destruct (fs p0) as [f|] eqn:E; [|discriminate].
  destruct (usable f) eqn:U; [|discriminate].
  destruct Hp as [<-|Hp].
  - exists (rewritten pf transform f). split; [|now apply rewritten_settled].
    eapply settled_stays; [now apply rewritten_settled | | exact H].
    apply write_same.
  - eapply IH; eassumption.
Qed.

Lemma rerun_keeps files : forall fs,
  (forall p, In p files -> exists g, fs p = Some g /\ settled pf transform g) ->
  exists fs2, process_files pf transform fs files = Some fs2 /\
              forall q, fs2 q = fs q.
Proof.
  induction files as [|p ps IH]; intros fs H.
  - exists fs. split; reflexivity.
  - cbn [process_files]. rewrite process_file_spec.
    destruct (H p (or_introl eq_refl)) as (g & E & Ug & Rg).
    rewrite E, Ug, Rg.
    assert (Same : forall q, write fs p g q = fs q).
    { intro q. destruct (path_eq_dec q p) as [->|N].
      - now rewrite write_same.
      - now rewrite write_other. }
    destruct (IH (write fs p g)) as (fs2 & R & Q).
    + intros x Hx. rewrite Same. apply H. now right.
    + exists fs2. split; [exact R|]. intro q. now rewrite Q, Same.
Qed.

(** A second run of the loop over the same list leaves every file as the
    first run left it. *)
Lemma process_files_twice files fs q :
  content_after (and_then (process_files pf transform fs files)
                          (fun fs1 => process_files pf transform fs1 files)) q
  = content_after (process_files pf transform fs files) q.
Proof.
  destruct (process_files pf transform fs files) as [fs1|] eqn:R;
    [|reflexivity].
  cbn [and_then].
  destruct (rerun_keeps files fs1 (all_settled files fs fs1 R)) as (fs2 & R2 & Q).
  rewrite R2. cbn [content_after option_map]. now rewrite Q.
Qed.

End FileLoop.

Section CoreSettles.

(** The line filter settles a file: read back, what it wrote is what it
    writes again. *)
Lemma scan_settles pf f :
  usable f = true ->
  rewritten pf Scan.resolve (rewritten pf Scan.resolve f)
  = rewritten pf Scan.resolve f.
Proof.
  intro H. unfold rewritten. cbn [decoded readable writable]. f_equal.
  destruct (decoded f) as [raw|]; [|reflexivity]. cbn [option_map].
  f_equal. f_equal.
  rewrite newlines_out_in.
  - apply scan_idempotent.
  - apply no_cr_scan. apply no_cr_newlines_in.
Qed.

End CoreSettles.

Section HeadFiles.

Lemma not_in_by_test (x : path) l :
  forallb (fun y => if path_eq_dec y x then false else true) l = true ->
  ~ In x l.
Proof.
  induction l as [|y l IH]; cbn [forallb In]; [tauto|].
  destruct (path_eq_dec y x); [discriminate|]. tauto.
Qed.

Lemma head_files_nodup : NoDup head_files.
Proof.
  unfold head_files. cbn [map].
  repeat (apply NoDup_cons; [apply not_in_by_test; vm_compute; reflexivity|]).
  apply NoDup_nil.
Qed.

End HeadFiles.

(* ------------------------------------------------------------------ *)
(** ** The properties of the specification *)

(** C1.  On a document with exactly one well-formed conflict block the two
    scripts are to write the same text, the local segment in place of the
    block.  With a block whose local segment holds no line they do not:
    the line filter writes the empty text, the pattern substitution
    matches nothing and leaves the block with its three markers. *)
Theorem C1_empty_local_segment_diverges :
  forallb well_formed empty_local_block = true /\
  Scan.resolve (render empty_local_block) = [] /\
  Regex.resolve (render empty_local_block) = render empty_local_block /\
  Scan.resolve (render empty_local_block)
  <> Regex.resolve (render empty_local_block).
Proof.
  repeat split; try (vm_compute; reflexivity).
  vm_compute. discriminate.
Qed.



(** C3.  Every block of a document is to be replaced by its own local
    segment, with nothing of one block reaching into another.  With a
    well-formed first block that has no local line this fails: group 1
    runs on to the separator of the second block, and the text written
    keeps the separator, the incoming line and the end marker of the
    first block and the start marker of the second. *)
Theorem C3_empty_local_segment_leaks :
  forallb well_formed empty_local_then_block = true /\
  Regex.resolve (render empty_local_then_block)
  = join (map lit ["======="; "R1"; ">>>>>>> h1"; "mid"; "<<<<<<< HEAD"; "L2"]%string)
  /\
  Regex.resolve (render empty_local_then_block) <> resolved empty_local_then_block.
Proof.
  repeat split; try (vm_compute; reflexivity).
  vm_compute. discriminate.
Qed.

(** The two-block scenario of the specification, where both blocks hold a
    line in each segment, is resolved block by block. *)
Lemma two_block_scenario_resolved :
  Regex.resolve two_block_scenario = join (map lit ["L1"; "mid"; "L2"]%string).
Proof. vm_compute. reflexivity. Qed.

(** C4.  On the lines a, <<<<<<< HEAD, b, =======, c, >>>>>>> branch1, d
    the line filter keeps exactly a, b, d. *)
Theorem C4_scan_scenario :
  Scan.filter_lines scan_scenario = map lit ["a"; "b"; "d"]%string.
Proof. vm_compute. reflexivity. Qed.

(** C5.  Both scripts change nothing in their own resolved output: when
    the text a script has written holds no marker line, running the same
    script on that text writes it again unchanged. *)
Theorem C5_idempotent_on_resolved_output d1 d2 :
  no_marker_lines (Scan.resolve d1) = true ->
  no_marker_lines (Regex.resolve d2) = true ->
  Scan.resolve (Scan.resolve d1) = Scan.resolve d1
  /\ Regex.resolve (Regex.resolve d2) = Regex.resolve d2.
Proof.
  unfold no_marker_lines. intros H1 H2. split.
  - apply scan_fixed. revert H1. apply forallb_weaken. intros l Hl.
    apply negb_true_iff in Hl. unfold marker_line in Hl.
    apply orb_false_iff in Hl as [Hl _]. apply orb_false_iff in Hl as [Hl _].
    now rewrite Hl.
  - apply regex_fixed. revert H2. apply forallb_weaken. intros l Hl.
    apply negb_true_iff in Hl. unfold marker_line in Hl.
    apply orb_false_iff in Hl as [Hl _]. apply orb_false_iff in Hl as [_ Hl].
    now rewrite Hl.
Qed.

Lemma C5_idempotent_on_resolved_output_witness :
  Scan.resolve (Scan.resolve (join scan_scenario))
  = Scan.resolve (join scan_scenario)
  /\ Regex.resolve (Regex.resolve two_block_scenario)
     = Regex.resolve two_block_scenario.
Proof.
  apply C5_idempotent_on_resolved_output; vm_compute; reflexivity.
Defined.

(** C6 (as amended).  A start marker after which no separator followed by
    an end marker comes, and over which no match runs that the
    substitution takes earlier in the text, is left untouched together
    with all the text after it, byte for byte: what the substitution
    writes is what it wrote for the text before the marker, then the
    marker and the rest as they are. *)
Theorem C6_dangling_start_marker_untouched pre rest out :
  written_before pre (START ++ nl :: rest) = Some out ->
  sep_then_end rest = false ->
  Regex.resolve (pre ++ START ++ nl :: rest) = out ++ START ++ nl :: rest.
Proof. apply sub_dangling_after. Qed.

Lemma C6_dangling_start_marker_untouched_witness :
  Regex.resolve
    ((join (map lit ["x"; "<<<<<<< HEAD"; "keep"; "======="; "drop"; ">>>>>>> abc"]%string)
      ++ [nl])
     ++ START ++ nl :: join (map lit ["mine"; "======="; "theirs"; ">>>>>>>"]%string))
  = (join (map lit ["x"; "keep"]%string) ++ [nl])
    ++ START ++ nl :: join (map lit ["mine"; "======="; "theirs"; ">>>>>>>"]%string).
Proof.
  apply (C6_dangling_start_marker_untouched
           (join (map lit ["x"; "<<<<<<< HEAD"; "keep"; "======="; "drop";
                           ">>>>>>> abc"]%string) ++ [nl])
           (join (map lit ["mine"; "======="; "theirs"; ">>>>>>>"]%string))
           (join (map lit ["x"; "keep"]%string) ++ [nl]));
    vm_compute; reflexivity.
Defined.

(** C6 as stated fails: a start marker inside the incoming segment of an
    open block has no separator and end marker after it, yet the match
    that begins at the first start marker runs over it to the end marker,
    and only the first local segment is written. *)
Lemma C6_nested_start_marker_swallowed :
  sep_then_end nested_after = false /\
  Regex.resolve (nested_before ++ START ++ nl :: nested_after) = lit "A" /\
  forall out,
    Regex.resolve (nested_before ++ START ++ nl :: nested_after)
    <> out ++ START ++ nl :: nested_after.
Proof.
  assert (R : Regex.resolve (nested_before ++ START ++ nl :: nested_after) = lit "A")
    by (vm_compute; reflexivity).
  split; [vm_compute; reflexivity|]. split; [exact R|].
  intros out H. rewrite R in H.
  apply (f_equal (@List.length ascii)) in H. rewrite length_app in H.
  assert (L : List.length (START ++ nl :: nested_after) = 24)
    by (vm_compute; reflexivity).
  rewrite L in H. cbn in H. lia.
Qed.

(** C7 (as amended).  A document that ends inside a block is filtered
    like any other and its kept lines are written, whatever the final
    flags are.  Ending in the local segment, after well-formed chunks, it
    leaves the resolved chunks and the local lines, with [in_head] still
    set.  Ending after a separator with no line that opens with the
    end-marker text, it leaves nothing of the remaining lines but lines
    that open with the separator text, and [in_remote] is still set; the
    same holds after any lines that have left [in_remote] set. *)
Theorem C7_unterminated_block_accepted d lo tail :
  forallb well_formed d = true ->
  forallb content_line lo = true ->
  forallb no_nl tail = true ->
  forallb (fun l => negb (startswith ENDT l)) tail = true ->
  (Scan.resolve (join (flat_map chunk_lines d ++ START :: lo))
   = join (flat_map chunk_resolved d ++ lo)
   /\ fst (Scan.run (flat_map chunk_lines d ++ START :: lo)) = IN_LOCAL)
  /\
  (exists kept,
     Scan.resolve (join (flat_map chunk_lines d ++ START :: lo ++ SEPT :: tail))
     = join (flat_map chunk_resolved d ++ lo ++ kept)
     /\ forallb (startswith SEPT) kept = true
     /\ subseq kept tail = true)
  /\
  Scan.in_remote
    (fst (Scan.run (flat_map chunk_lines d ++ START :: lo ++ SEPT :: tail))) = true
  /\
  (forall pre,
     Scan.in_remote (fst (Scan.run pre)) = true ->
     exists kept,
       Scan.filter_lines (pre ++ tail) = Scan.filter_lines pre ++ kept
       /\ forallb (startswith SEPT) kept = true
       /\ subseq kept tail = true
       /\ Scan.in_remote (fst (Scan.run (pre ++ tail))) = true).
Proof.
  intros Hd Hlo Hnl Hend.
  assert (Nlo : forallb no_nl lo = true).
  { revert Hlo. apply forallb_weaken. intros x Hx.
    now apply content_line_inv in Hx. }
  destruct no_nl_marker_texts as (NS & NP & _).
  assert (Back : forall more, forallb no_nl more = true ->
            split (join (flat_map chunk_lines d ++ START :: more))
            = flat_map chunk_lines d ++ START :: more).
  { intros more Hm. apply split_join.
    - now destruct (flat_map chunk_lines d).
    - rewrite forallb_app, flat_lines_no_nl by assumption.
      cbn [forallb]. now rewrite NS, Hm. }
  destruct (emit_local lo Hlo) as [El Fl].
  repeat split.
  - unfold Scan.resolve. rewrite Back by assumption.
    rewrite filter_lines_emit, emit_chunks by assumption.
    rewrite emit_cons, step_init_start. cbn [fst snd app]. now rewrite El.
  - rewrite run_final, final_app, final_chunks by assumption.
    rewrite final_cons, step_init_start. cbn [fst]. exact Fl.
  - exists (emit IN_INCOMING tail).
    destruct (emit_in_remote tail IN_INCOMING eq_refl Hend) as [K1 _].
    repeat split; [|exact K1|apply emit_subseq].
    unfold Scan.resolve. rewrite Back.
    + rewrite filter_lines_emit, emit_chunks by assumption.
      rewrite emit_cons, step_init_start. cbn [fst snd app].
      rewrite emit_app, El, Fl, emit_cons, step_local_sep. reflexivity.
    + rewrite forallb_app, Nlo. cbn [forallb]. now rewrite NP, Hnl.
  - rewrite run_final, final_app, final_chunks by assumption.
    rewrite final_cons, step_init_start. cbn [fst].
    rewrite final_app, Fl, final_cons, step_local_sep. cbn [fst].
    now destruct (emit_in_remote tail IN_INCOMING eq_refl Hend).
  - intros pre Hpre. rewrite run_final in Hpre.
    destruct (emit_in_remote tail _ Hpre Hend) as [K1 K2].
    exists (emit (final Scan.init pre) tail).
    rewrite !filter_lines_emit, emit_app, run_final, final_app.
    repeat split; auto using emit_subseq.
Qed.

Lemma C7_unterminated_block_accepted_witness :
  (Scan.resolve (join (flat_map chunk_lines [Plain (lit "x")] ++ START :: [lit "a"]))
   = join (flat_map chunk_resolved [Plain (lit "x")] ++ [lit "a"])
   /\ fst (Scan.run (flat_map chunk_lines [Plain (lit "x")] ++ START :: [lit "a"]))
      = IN_LOCAL)
  /\
  (exists kept,
     Scan.resolve (join (flat_map chunk_lines [Plain (lit "x")] ++
                         START :: [lit "a"] ++ SEPT :: map lit ["b"; "c"]%string))
     = join (flat_map chunk_resolved [Plain (lit "x")] ++ [lit "a"] ++ kept)
     /\ forallb (startswith SEPT) kept = true
     /\ subseq kept (map lit ["b"; "c"]%string) = true)
  /\
  Scan.in_remote
    (fst (Scan.run (flat_map chunk_lines [Plain (lit "x")] ++
                    START :: [lit "a"] ++ SEPT :: map lit ["b"; "c"]%string))) = true
  /\
  (forall pre,
     Scan.in_remote (fst (Scan.run pre)) = true ->
     exists kept,
       Scan.filter_lines (pre ++ map lit ["b"; "c"]%string)
       = Scan.filter_lines pre ++ kept
       /\ forallb (startswith SEPT) kept = true
       /\ subseq kept (map lit ["b"; "c"]%string) = true
       /\ Scan.in_remote (fst (Scan.run (pre ++ map lit ["b"; "c"]%string))) = true).
Proof.
  apply (C7_unterminated_block_accepted
           [Plain (lit "x")] [lit "a"] (map lit ["b"; "c"]%string));
    vm_compute; reflexivity.
Defined.

(** C7 as stated fails: after a separator and with no end marker, a line
    that opens with the separator text is not dropped.  The document ends
    with [in_remote] set and the second separator line is written. *)
Lemma C7_second_separator_kept :
  fst (Scan.run second_separator_scenario) = IN_INCOMING /\
  Scan.resolve (join second_separator_scenario)
  = join (map lit ["a"; "======="]%string) /\
  Scan.resolve (join second_separator_scenario) <> join (map lit ["a"]%string).
Proof.
  repeat split; try (vm_compute; reflexivity).
  vm_compute. discriminate.
Qed.

(** C8.  No line of what the filter writes opens with the start marker:
    a line that opens with it is dropped in every state, whatever the
    flags and whatever [new_lines] holds. *)
Theorem C8_no_start_marker_in_output doc st new_lines rest :
  Forall (fun l => startswith START l = false) (split (Scan.resolve doc))
  /\ snd (Scan.body (st, new_lines) (START ++ rest)) = new_lines.
Proof.
  split.
  - apply Forall_forall. intros l Hl.
    pose proof (split_resolve doc) as H.
    rewrite forallb_forall in H. specialize (H l Hl).
    now apply negb_true_iff in H.
  - unfold Scan.body. now rewrite startswith_app.
Qed.

(** C9.  A line that opens with the separator text, read while the filter
    is inside the incoming segment ([in_head] false, [in_remote] true), is
    appended to [new_lines] unchanged and leaves the flags as they are. *)
Theorem C9_second_separator_emitted l new_lines :
  startswith SEPT l = true ->
  Scan.body (IN_INCOMING, new_lines) l = (IN_INCOMING, new_lines ++ [l]).
Proof.
  intro H. unfold Scan.body. now rewrite (sep_not_start l H), H.
Qed.

Lemma C9_second_separator_emitted_witness :
  Scan.body (IN_INCOMING, [lit "kept"]) (lit "======= again")
  = (IN_INCOMING, [lit "kept"] ++ [lit "======= again"]).
Proof.
  apply C9_second_separator_emitted. vm_compute. reflexivity.
Defined.

(** C10 (as amended).  On a block of content lines whose last line opens
    with the end-marker text, followed by a line end, the pattern matches
    when the local segment holds a line, the incoming segment holds a line
    and the end line is the end-marker text, a space and at least one more
    character; group 1 is then the local segment.  A block that lacks one
    of the three is not matched, and is left as it is with all that
    follows it, provided that no end marker the pattern accepts begins in
    the text after the block and that no match runs over the block that
    the substitution takes earlier in the text. *)
Theorem C10_pattern_needs_segments_and_identifier lo inc e t :
  forallb content_line lo = true ->
  forallb content_line inc = true ->
  no_nl e = true ->
  startswith ENDT e = true ->
  line_end t ->
  (nonempty lo && nonempty inc && accepted_end e = true ->
   Regex.match_at (join (START :: lo ++ SEPT :: inc ++ [e]) ++ t)
   = Some (join lo, t))
  /\
  (nonempty lo && nonempty inc && accepted_end e = false ->
   anywhere end_here t = false ->
   Regex.match_at (join (START :: lo ++ SEPT :: inc ++ [e]) ++ t) = None
   /\ forall pre out,
        written_before pre (join (START :: lo ++ SEPT :: inc ++ [e]) ++ t)
        = Some out ->
        Regex.resolve (pre ++ join (START :: lo ++ SEPT :: inc ++ [e]) ++ t)
        = out ++ join (START :: lo ++ SEPT :: inc ++ [e]) ++ t).
Proof.
  intros Hlo Hinc He HeE Ht. split.
  - intro A.
    apply andb_true_iff in A as [A Ae]. apply andb_true_iff in A as [Alo Ainc].
    destruct lo as [|l0 lo]; [discriminate|].
    destruct inc as [|i0 inc]; [discriminate|].
    unfold accepted_end in Ae. apply andb_true_iff in Ae as [Ae1 Ae2].
    apply startswith_split in Ae1. rewrite end_text_length in Ae1.
    destruct (skipn 8 e) as [|c id]; [discriminate|].
    assert (Hid : no_nl (c :: id) = true).
    { rewrite Ae1, no_nl_app in He. now apply andb_true_iff in He. }
    pose proof (block_text l0 lo i0 inc (c :: id) t) as T.
    assert (E : end_line (c :: id) = e)
      by (unfold end_line; now rewrite app_assoc).
    cbn [chunk_lines] in T. rewrite E in T.
    rewrite join_tails.
    assert (J : tl (tails (START :: (l0 :: lo) ++ SEPT :: (i0 :: inc) ++ [e])) ++ t
                = tl (tails (START :: (l0 :: lo) ++ SEPT :: (i0 :: inc) ++ [e]) ++ t))
      by reflexivity.
    rewrite J, T. cbn [tl].
    exact (match_block l0 lo i0 inc c id t Hlo Hinc Hid Ht).
  - intros A Hend.
    pose proof (unaccepted_block_context lo inc e t Hlo Hinc He HeE A Ht Hend) as U.
    rewrite block_lines_text, <- app_assoc. cbn [app].
    split.
    + apply match_at_none. unfold block_here.
      change (START ++ nl :: join (lo ++ SEPT :: inc ++ [e]) ++ t)
        with (START ++ [nl] ++ join (lo ++ SEPT :: inc ++ [e]) ++ t).
      rewrite app_assoc. fold START_NL.
      now rewrite startswith_app, skipn_exact, U.
    + intros pre out W. now apply sub_dangling_after.
Qed.

Lemma C10_pattern_needs_segments_and_identifier_witness :
  (nonempty (@nil line) && nonempty [lit "theirs"] && accepted_end (lit ">>>>>>> b") = true ->
   Regex.match_at (join (START :: [] ++ SEPT :: [lit "theirs"] ++ [lit ">>>>>>> b"])
                   ++ nl :: lit "after")
   = Some (join [], nl :: lit "after"))
  /\
  (nonempty (@nil line) && nonempty [lit "theirs"] && accepted_end (lit ">>>>>>> b") = false ->
   anywhere end_here (nl :: lit "after") = false ->
   Regex.match_at (join (START :: [] ++ SEPT :: [lit "theirs"] ++ [lit ">>>>>>> b"])
                   ++ nl :: lit "after") = None
   /\ forall pre out,
        written_before pre
          (join (START :: [] ++ SEPT :: [lit "theirs"] ++ [lit ">>>>>>> b"])
           ++ nl :: lit "after")
        = Some out ->
        Regex.resolve
          (pre ++ join (START :: [] ++ SEPT :: [lit "theirs"] ++ [lit ">>>>>>> b"])
           ++ nl :: lit "after")
        = out ++ join (START :: [] ++ SEPT :: [lit "theirs"] ++ [lit ">>>>>>> b"])
          ++ nl :: lit "after").
Proof.
  apply (C10_pattern_needs_segments_and_identifier
           [] [lit "theirs"] (lit ">>>>>>> b") (nl :: lit "after"));
    vm_compute; reflexivity.
Defined.

(** C10 as stated fails: a block that the pattern does not accept is
    matched and changed all the same when the text after it brings the
    end marker it lacks, and when a match that begins before it runs over
    it.  A first block with no local line before a second block is
    matched at its start marker; after an open block, a block with no
    local line is swallowed and only the local line of the open block is
    written. *)
Lemma C10_unaccepted_block_changed_in_context :
  is_some (Regex.match_at (render empty_local_then_block)) = true /\
  Regex.resolve (render empty_local_then_block) <> render empty_local_then_block /\
  Regex.resolve open_then_empty_local = lit "A".
Proof.
  repeat split; try (vm_compute; reflexivity).
  vm_compute. discriminate.
Qed.

(* ------------------------------------------------------------------ *)
(** ** Further properties of the two scripts *)

(** X1.  The line filter resolves every block of a document of well-formed
    chunks, whatever the number of blocks and also when a segment of a
    block holds no line: each block leaves exactly its local segment. *)
Theorem X1_filter_resolves_every_block d :
  forallb well_formed d = true ->
  Scan.resolve (render d) = resolved d.
Proof. apply scan_render. Qed.

Lemma X1_filter_resolves_every_block_witness :
  Scan.resolve (render empty_local_then_block) = resolved empty_local_then_block.
Proof.
  apply X1_filter_resolves_every_block. vm_compute. reflexivity.
Defined.

(** X2.  Running the line filter on what it has written changes nothing,
    for every content. *)
Theorem X2_filter_idempotent doc :
  Scan.resolve (Scan.resolve doc) = Scan.resolve doc.
Proof. apply scan_idempotent. Qed.

(** X3.  The line filter only leaves lines out: [new_lines] holds lines of
    the input, in the order of the input. *)
Theorem X3_filter_only_deletes ls :
  subseq (Scan.filter_lines ls) ls = true.
Proof. rewrite filter_lines_emit. apply emit_subseq. Qed.

(** X4.  Once [in_remote] is set, and as long as no line opens with the
    end-marker text, the flag stays set and the loop appends nothing but
    lines that open with the separator text: every other line is lost. *)
Theorem X4_in_remote_drops_until_end_marker st ls :
  Scan.in_remote st = true ->
  forallb (fun l => negb (startswith ENDT l)) ls = true ->
  forallb (startswith SEPT) (snd (Scan.loop (st, []) ls)) = true
  /\ Scan.in_remote (fst (Scan.loop (st, []) ls)) = true.
Proof.
  intros Hst H. rewrite loop_spec. cbn [fst snd app].
  now apply emit_in_remote.
Qed.

Lemma X4_in_remote_drops_until_end_marker_witness :
  forallb (startswith SEPT)
    (snd (Scan.loop (IN_INCOMING, [])
            (map lit ["b"; "<<<<<<< HEAD"; "c"; "======="; "=======x"; "d"]%string)))
  = true
  /\ Scan.in_remote
       (fst (Scan.loop (IN_INCOMING, [])
               (map lit ["b"; "<<<<<<< HEAD"; "c"; "======="; "=======x"; "d"]%string)))
     = true.
Proof.
  apply X4_in_remote_drops_until_end_marker; vm_compute; reflexivity.
Defined.

(** X5.  After the lines of a document of well-formed chunks both flags
    are cleared again: the loop ends outside every block. *)
Theorem X5_filter_ends_outside d :
  forallb well_formed d = true ->
  fst (Scan.run (flat_map chunk_lines d)) = Scan.init.
Proof. intro H. rewrite run_final. now apply final_chunks. Qed.

Lemma X5_filter_ends_outside_witness :
  fst (Scan.run (flat_map chunk_lines empty_local_then_block)) = Scan.init.
Proof.
  apply X5_filter_ends_outside. vm_compute. reflexivity.
Defined.

(** X6.  Every match of the pattern is a complete triple: the matched text
    is the start marker and its newline, group 1, the separator between
    two newlines, some text, a newline with the end-marker text and a
    space, and a non-empty run without newline that reaches the end of its
    line; what is left unread begins at that line end. *)
Theorem X6_match_is_complete_triple s g r :
  Regex.match_at s = Some (g, r) ->
  exists x id,
    s = START_NL ++ g ++ SEP ++ x ++ ENDP ++ id ++ r /\
    nonempty id = true /\ no_nl id = true /\ line_end r.
Proof.
  intro H. apply match_at_shape in H as (x & id & H1 & H2 & H3 & H4 & _).
  exists x, id. auto.
Qed.

Lemma X6_match_is_complete_triple_witness :
  exists x id,
    join (map lit ["<<<<<<< HEAD"; "keep"; "======="; "drop"; ">>>>>>> abc"; "y"]%string)
    = START_NL ++ lit "keep" ++ SEP ++ x ++ ENDP ++ id ++ (nl :: lit "y") /\
    nonempty id = true /\ no_nl id = true /\ line_end (nl :: lit "y").
Proof.
  apply (X6_match_is_complete_triple
           (join (map lit ["<<<<<<< HEAD"; "keep"; "======="; "drop";
                           ">>>>>>> abc"; "y"]%string))
           (lit "keep") (nl :: lit "y")).
  vm_compute. reflexivity.
Defined.

(** X7.  The pattern matches at a position exactly when the text there
    begins with the start marker and its newline and holds, after it, a
    separator between two newlines followed somewhere by a newline, the
    end-marker text, a space and one character that is not a newline. *)
Theorem X7_match_exactly_at_complete_triples s :
  is_some (Regex.match_at s) = block_here s.
Proof. apply match_at_some. Qed.

(** X8.  Group 1 is minimal: it ends at the first separator after the
    start marker that has an accepted end marker somewhere after it. *)
Theorem X8_group_ends_at_first_separator t g r :
  Regex.match_at (START_NL ++ t) = Some (g, r) ->
  exists u, t = g ++ u /\ sep_here u = true /\
    forall a1 a2, g = a1 ++ a2 -> a2 <> [] -> sep_here (a2 ++ u) = false.
Proof.
  intro H. apply match_at_shape in H as (x & id & E & _ & _ & _ & Hs & Hmin).
  apply app_inv_head in E.
  exists (SEP ++ x ++ ENDP ++ id ++ r). repeat split; auto.
  intros a1 a2 Ha Hne. eapply after_open_none. exact (Hmin a1 a2 Ha Hne).
Qed.

Lemma X8_group_ends_at_first_separator_witness :
  exists u,
    join (map lit ["a"; "======="; "b"; "======="; "c"; ">>>>>>> x"]%string)
    = lit "a" ++ u /\ sep_here u = true /\
    forall a1 a2, lit "a" = a1 ++ a2 -> a2 <> [] -> sep_here (a2 ++ u) = false.
Proof.
  apply (X8_group_ends_at_first_separator
           (join (map lit ["a"; "======="; "b"; "======="; "c"; ">>>>>>> x"]%string))
           (lit "a") []).
  vm_compute. reflexivity.
Defined.

(** X9.  The substitution shortens a text in which a complete triple
    begins somewhere, and returns every other text as it is: it changes
    the file exactly when the pattern can match. *)
Theorem X9_substitution_shortens_or_keeps s :
  if has_block s
  then List.length (Regex.resolve s) < List.length s
  else Regex.resolve s = s.
Proof.
  destruct (has_block s) eqn:H.
  - now apply sub_shorter.
  - now apply sub_no_block.
Qed.

(** X10.  On every document of well-formed chunks whose blocks hold a line
    in each segment, whatever the number of blocks, the two scripts write
    the same text. *)
Theorem X10_scripts_agree_on_blocks d :
  forallb well_formed d = true ->
  forallb both_segments d = true ->
  Scan.resolve (render d) = Regex.resolve (render d).
Proof.
  intros Hw Hb. rewrite scan_render by assumption.
  unfold Regex.resolve. now rewrite sub_render.
Qed.

Lemma X10_scripts_agree_on_blocks_witness :
  Scan.resolve (render [Conflict [lit "L1"] [lit "R1"] (lit "h1");
                        Plain (lit "mid");
                        Conflict [lit "L2"] [lit "R2"; lit ""] (lit "h2")])
  = Regex.resolve (render [Conflict [lit "L1"] [lit "R1"] (lit "h1");
                           Plain (lit "mid");
                           Conflict [lit "L2"] [lit "R2"; lit ""] (lit "h2")]).
Proof.
  apply X10_scripts_agree_on_blocks; vm_compute; reflexivity.
Defined.


(** X11.  When the list names no file twice and every listed file exists,
    opens for reading, decodes and opens for writing, the loop over the
    files ends normally.  Each listed file then holds its characters read
    with universal newlines, transformed, and written with the line
    separator of the platform; every other file is as it was, and no file
    appears or disappears. *)
Theorem X11_loop_rewrites_listed_files pf transform fs files q :
  NoDup files ->
  forallb (usable_at fs) files = true ->
  content_after (process_files pf transform fs files) q
  = Some (if in_dec path_eq_dec q files
          then option_map (rewritten pf transform) (fs q)
          else fs q).
Proof. apply process_files_nodup_lookup. Qed.

Lemma X11_loop_rewrites_listed_files_witness :
  content_after
    (process_files Posix Regex.resolve example_store [lit "a.rs"; lit "c.rs"])
    (lit "a.rs")
  = Some (if in_dec path_eq_dec (lit "a.rs") [lit "a.rs"; lit "c.rs"]
          then option_map (rewritten Posix Regex.resolve) (example_store (lit "a.rs"))
          else example_store (lit "a.rs")).
Proof.
  apply (X11_loop_rewrites_listed_files Posix Regex.resolve example_store
           [lit "a.rs"; lit "c.rs"] (lit "a.rs")).
  - repeat (apply NoDup_cons; [apply not_in_by_test; vm_compute; reflexivity|]).
    apply NoDup_nil.
  - vm_compute. reflexivity.
Defined.

(** X12.  Over a list that names no file twice, the loop over the files
    ends normally exactly when every listed file exists, opens for
    reading, decodes and opens for writing at the start: one file that
    fails one of these makes the run fail. *)
Theorem X12_loop_succeeds_iff_all_files_usable pf transform fs files :
  NoDup files ->
  is_some (process_files pf transform fs files) = forallb (usable_at fs) files.
Proof. apply process_files_nodup_some. Qed.

Lemma X12_loop_succeeds_iff_all_files_usable_witness :
  is_some (process_files Posix Scan.resolve example_store [lit "a.rs"; lit "b.rs"])
  = forallb (usable_at example_store) [lit "a.rs"; lit "b.rs"].
Proof.
  apply X12_loop_succeeds_iff_all_files_usable.
  repeat (apply NoDup_cons; [apply not_in_by_test; vm_compute; reflexivity|]).
  apply NoDup_nil.
Defined.

(** X13.  When the loop comes to a listed file that is missing, does not
    open for reading, does not decode or does not open for writing, it
    stops there: the files listed before it, each once and all usable,
    are already rewritten, and every other file, the failing one and the
    later ones included, is as it was. *)
Theorem X13_failure_keeps_earlier_writes pf transform fs done p rest :
  NoDup done ->
  forallb (usable_at fs) done = true ->
  usable_at fs p = false ->
  snd (run_files pf transform fs (done ++ p :: rest)) = Some p /\
  forall q, fst (run_files pf transform fs (done ++ p :: rest)) q
            = if in_dec path_eq_dec q done
              then option_map (rewritten pf transform) (fs q)
              else fs q.
Proof. apply run_files_abort. Qed.

Lemma X13_failure_keeps_earlier_writes_witness :
  snd (run_files Posix Regex.resolve example_store
         ([lit "a.rs"] ++ lit "b.rs" :: [lit "c.rs"]))
  = Some (lit "b.rs") /\
  forall q,
    fst (run_files Posix Regex.resolve example_store
           ([lit "a.rs"] ++ lit "b.rs" :: [lit "c.rs"])) q
    = if in_dec path_eq_dec q [lit "a.rs"]
      then option_map (rewritten Posix Regex.resolve) (example_store q)
      else example_store q.
Proof.
  apply (X13_failure_keeps_earlier_writes Posix Regex.resolve example_store
           [lit "a.rs"] (lit "b.rs") [lit "c.rs"]).
  - repeat (apply NoDup_cons; [apply not_in_by_test; vm_compute; reflexivity|]).
    apply NoDup_nil.
  - vm_compute. reflexivity.
  - vm_compute. reflexivity.
Defined.

(** X14.  When its four files exist, open for reading, decode and open
    for writing, [resolve_head.py] ends normally: each of the four holds
    its characters read with universal newlines, passed once through the
    substitution and written back, and every other file is as it was. *)
Theorem X14_resolve_head_touches_its_four_files pf fs q :
  forallb (usable_at fs) head_files = true ->
  content_after (resolve_head_main pf fs) q
  = Some (if in_dec path_eq_dec q head_files
          then option_map (rewritten pf Regex.resolve) (fs q)
          else fs q).
Proof.
  intro H. unfold resolve_head_main.
  apply process_files_nodup_lookup; [apply head_files_nodup | exact H].
Qed.

Lemma X14_resolve_head_touches_its_four_files_witness :
  content_after (resolve_head_main Posix (fun _ => Some (text_file crlf_scenario)))
    (lit "contracts/program-escrow/src/lib.rs")
  = Some (if in_dec path_eq_dec (lit "contracts/program-escrow/src/lib.rs") head_files
          then option_map (rewritten Posix Regex.resolve)
                 (Some (text_file crlf_scenario))
          else Some (text_file crlf_scenario)).
Proof.
  apply (X14_resolve_head_touches_its_four_files Posix
           (fun _ => Some (text_file crlf_scenario))
           (lit "contracts/program-escrow/src/lib.rs")).
  vm_compute. reflexivity.
Defined.

(** X15.  Running [resolve_core_conflicts.py] a second time over the same
    files changes nothing: every file is left as the first run left it,
    and the second run fails only if the first did. *)
Theorem X15_resolve_core_twice_is_once pf globbed fs q :
  content_after (and_then (resolve_core_main pf globbed fs)
                          (resolve_core_main pf globbed)) q
  = content_after (resolve_core_main pf globbed fs) q.
Proof.
  unfold resolve_core_main.
  apply (process_files_twice pf Scan.resolve (scan_settles pf) globbed fs q).
Qed.

(** X16.  Splitting a content at newlines and joining the lines with
    newlines gives the content back, byte for byte; the lines hold no
    newline and there is always at least one. *)
Theorem X16_split_then_join s :
  join (split s) = s /\ forallb no_nl (split s) = true
  /\ nonempty (split s) = true.
Proof.
  repeat split; [apply join_split | apply split_no_nl |].
  pose proof (split_nonempty s). now destruct (split s).
Qed.

